(** * Multiplicative digital persistence search: a model of [persistence.c]

    The development embeds the three parts of the program
    - [mul_digits]      (one digit-product step over a histogram of digits),
    - [mpz_persistence] (the iteration of that step),
    - [main]            (the enumeration of canonical forms and the record),
    and relates them to the arithmetic notions they are meant to compute.

    GMP integers ([mpz_t]) are unbounded and are modelled as [Z].  Values of
    the C type [unsigned] are modelled as [Z] in the range [0, 2^32) with the
    reduction modulo [2^32] written out at every arithmetic operation. *)

From stdpp Require Import base numbers list strings sorting.
From Stdlib Require Import ZArith Lia Ascii.

Local Open Scope Z_scope.

(** ** C loops with a decreasing size

    A [while (cond) body] loop over a state [St].  [iter_pow k] runs at most
    [2^k] iterations: [inl r] says that the guard failed in state [r], [inr s]
    that all [2^k] iterations were executed and left the state [s].  The
    doubling keeps the fuel logarithmic in the number of iterations, so the
    loops below can be evaluated on numbers of many digits. *)

Section While.
Context {St : Type}.
Variable cond : St -> bool.
Variable body : St -> St.

Fixpoint iter_pow (k : nat) (s : St) : St + St :=
  match k with
  | O => if cond s then inr (body s) else inl s
  | S k' =>
      match iter_pow k' s with
      | inl r => inl r
      | inr s' => iter_pow k' s'
      end
  end.

(** The loop leaves [s] after exactly [n] iterations, in state [r]. *)
Definition exits_after (s : St) (n : nat) (r : St) : Prop :=
  r = Nat.iter n body s /\ cond r = false /\
  forall m, (m < n)%nat -> cond (Nat.iter m body s) = true.

(** The size bounds the number of iterations; the fuel is taken from it. *)
Variable size : St -> Z.

Definition loop_fuel (s : St) : nat := S (Z.to_nat (Z.log2 (size s))).

Definition while (s : St) : St :=
  match iter_pow (loop_fuel s) s with
  | inl r => r
  | inr r => r
  end.
End While.

Arguments exits_after {St} cond body s n r.

(** ** The C type [unsigned]

    [unsigned] is 32 bits wide on the platforms the program is built for;
    arithmetic on it is reduced modulo [2^32]. *)

Definition UINT_BITS : Z := 32.

Definition wrap (x : Z) : Z := x mod 2 ^ UINT_BITS.

(** ** [mul_digits]

    State of the digit loop (lines 34-41): the big integer [in], which the
    loop divides down, the histogram [hist] and a flag that records the
    early [return] taken on a zero digit. *)

Record digit_state := {
  ds_in : Z;
  ds_hist : list Z;
  ds_returned : bool
}.

(** [unsigned hist[10] = { 0, }] *)
Definition hist_init : list Z := replicate 10 0.

(** [hist[r]++] *)
Definition hist_incr (hist : list Z) (r : Z) : list Z :=
  <[Z.to_nat r := wrap (hist !!! Z.to_nat r + 1)]> hist.

(** [mpz_cmp_ui(in, 0) > 0], and the loop has not been left by [return]. *)
Definition digit_cond (s : digit_state) : bool :=
  (0 <? ds_in s) && negb (ds_returned s).

(** [mpz_tdiv_q_ui(in, in, 10)] stores the truncated quotient in [in] and
    returns the absolute value of the remainder. *)
Definition digit_body (s : digit_state) : digit_state :=
  let r := Z.abs (Z.rem (ds_in s) 10) in
  let q := Z.quot (ds_in s) 10 in
  if r =? 0 then
    {| ds_in := q; ds_hist := ds_hist s; ds_returned := true |}
  else
    {| ds_in := q; ds_hist := hist_incr (ds_hist s) r; ds_returned := false |}.

Definition digit_while : digit_state -> digit_state :=
  while digit_cond digit_body ds_in.

Definition digit_loop (inp : Z) : digit_state :=
  digit_while {| ds_in := inp; ds_hist := hist_init; ds_returned := false |}.

(** Lines 43-44: the histogram is regrouped by prime factor. *)
Definition regroup (hist : list Z) : list Z :=
  let hist :=
    <[2%nat := wrap (hist !!! 2%nat
                     + wrap (wrap (wrap (hist !!! 4%nat * 2) + hist !!! 6%nat)
                             + wrap (hist !!! 8%nat * 3)))]> hist in
  <[3%nat := wrap (hist !!! 3%nat
                   + wrap (hist !!! 6%nat + wrap (hist !!! 9%nat * 2)))]> hist.

(** Lines 46-62: the powers are multiplied up, a zero exponent is skipped. *)
Definition recompose (hist : list Z) : Z :=
  let out := 2 ^ (hist !!! 2%nat) in
  let out := if hist !!! 3%nat =? 0 then out else out * 3 ^ (hist !!! 3%nat) in
  let out := if hist !!! 5%nat =? 0 then out else out * 5 ^ (hist !!! 5%nat) in
  let out := if hist !!! 7%nat =? 0 then out else out * 7 ^ (hist !!! 7%nat) in
  out.

(** The value left in [out].  The argument [in] is destroyed by the call;
    no caller reads it afterwards. *)
Definition mul_digits (inp : Z) : Z :=
  let s := digit_loop inp in
  if ds_returned s then 0 else recompose (regroup (ds_hist s)).

(** ** [mpz_persistence]

    The [for] loop of lines 74-77: [in] is replaced by its digit product and
    the [unsigned] counter is incremented while [mpz_cmp_ui(in, 10) > 0]. *)

Record pers_state := {
  ps_in : Z;
  ps_count : Z
}.

Definition pers_cond (s : pers_state) : bool := 10 <? ps_in s.

Definition pers_body (s : pers_state) : pers_state :=
  {| ps_in := mul_digits (ps_in s); ps_count := wrap (ps_count s + 1) |}.

Definition pers_init (inp : Z) : pers_state := {| ps_in := inp; ps_count := 0 |}.

Definition pers_while : pers_state -> pers_state :=
  while pers_cond pers_body ps_in.

Definition mpz_persistence (inp : Z) : Z :=
  ps_count (pers_while (pers_init inp)).

(** ** The arithmetic notions, as the specification words them

    Decimal digits of a natural number, least significant digit first; the
    numeral of [0] is the single digit [0]. *)

Fixpoint digits_fuel (k : nat) (n : Z) : list Z :=
  match k with
  | O => [n]
  | S k' => if n <? 10 then [n] else n mod 10 :: digits_fuel k' (n / 10)
  end.

Definition spec_digits (n : Z) : list Z :=
  digits_fuel (Z.to_nat (Z.log2 n)) n.

Definition list_product (l : list Z) : Z := fold_right Z.mul 1 l.

(** "The product of the base-10 digits of [n]; zero if any digit is zero." *)
Definition spec_digit_product (n : Z) : Z := list_product (spec_digits n).

(** Number of occurrences of the digit [d] in the numeral of [n]. *)
Definition digit_count (d n : Z) : Z :=
  Z.of_nat (count_occ Z.eq_dec (spec_digits n) d).

(** "The number of iterations of the digit-product map needed to reduce [n]
    below 10": the loop runs while the value is at least 10. *)
Definition spec_cond (s : Z * Z) : bool := 10 <=? fst s.

Definition spec_body (s : Z * Z) : Z * Z := (spec_digit_product (fst s), snd s + 1).

Definition spec_while : Z * Z -> Z * Z := while spec_cond spec_body fst.

Definition spec_persistence (n : Z) : Z := snd (spec_while (n, 0)).

(** [k] is the number of iterations of [f] that brings [n] below [limit]. *)
Definition first_below (f : Z -> Z) (limit n : Z) (k : nat) : Prop :=
  Nat.iter k f n < limit /\
  forall m, (m < k)%nat -> limit <= Nat.iter m f n.

(** [p] is the persistence of [v], or one less when the orbit of [v] under
    the digit product passes through 10. *)
Definition persistence_up_to_ten (p v : Z) : Prop :=
  ((forall m, Nat.iter m spec_digit_product v <> 10) -> p = spec_persistence v) /\
  ((exists m, Nat.iter m spec_digit_product v = 10) -> p = spec_persistence v - 1).

(** ** Decimal numerals as text *)

Definition digit_of_ascii (c : ascii) : Z := Z.of_nat (nat_of_ascii c) - 48.

(** Value of a decimal numeral, most significant digit first. *)
Fixpoint decimal_value_from (acc : Z) (s : string) : Z :=
  match s with
  | EmptyString => acc
  | String c s' => decimal_value_from (acc * 10 + digit_of_ascii c) s'
  end.

Definition decimal_value (s : string) : Z := decimal_value_from 0 s.

(** Product of the digits of a numeral; the empty numeral has product 1. *)
Fixpoint text_digit_product (s : string) : Z :=
  match s with
  | EmptyString => 1
  | String c s' => digit_of_ascii c * text_digit_product s'
  end.

(** Number of occurrences of a character in a text. *)
Fixpoint count_char (a : ascii) (s : string) : nat :=
  match s with
  | EmptyString => 0
  | String c s' => (if Ascii.eqb c a then 1 else 0) + count_char a s'
  end.

(** All characters of a text are digits from 1 to 9. *)
Fixpoint nonzero_digits_text (s : string) : Prop :=
  match s with
  | EmptyString => True
  | String c s' => 1 <= digit_of_ascii c <= 9 /\ nonzero_digits_text s'
  end.

(** [for (i = 0; i < n; i++) printf("c")] *)
Fixpoint digit_run (c : ascii) (n : nat) : string :=
  match n with
  | O => EmptyString
  | S n' => String c (digit_run c n')
  end.

(** ** The prefix table *)

Record prefix := {
  str : string;
  digits : nat;
  prod : Z
}.

Definition NUM_PREFIXES : nat := 6.

Definition prefixes : list prefix := [
  {| str := "26"; digits := 2; prod := 12 |};
  {| str := "2";  digits := 1; prod := 2 |};
  {| str := "3";  digits := 1; prod := 3 |};
  {| str := "4";  digits := 1; prod := 4 |};
  {| str := "6";  digits := 1; prod := 6 |};
  {| str := EmptyString; digits := 0; prod := 1 |}
].

Definition MAX_DIGITS : nat := 100.

(** ** [main]: the enumeration and the record

    The program is modelled as built without [USE_OPENMP].  Its state is the
    record variable [max] and the lines written to [stdout]; the progress
    counters [digits_left], which only feed [stderr], are left out.

    The state also carries a log, [trace], that the C program does not have:
    one entry per call of [mpz_persistence] in [main], with the prefix, the
    loop counters and the argument [num] (the candidate), the value of
    [persistence], and the value [max] had when the two were compared. *)

Record line := {
  line_persistence : Z;
  line_numeral : string
}.

Record candidate := {
  c_prefix : prefix;
  c_num5s : nat;
  c_num7s : nat;
  c_num8s : nat;
  c_num9s : nat;
  c_num : Z
}.

Record eval := {
  ev_cand : candidate;
  ev_persistence : Z;
  ev_max : Z
}.

Record state := {
  max : Z;
  stdout : list line;
  trace : list eval
}.

(** Only list things with a persistence of more than 2. *)
Definition init_state : state := {| max := 2; stdout := []; trace := [] |}.

(** [for (unsigned i = lo; i < hi; i++) body].  The counters of [main] never
    exceed the digit count, so they are modelled by [nat]. *)
Definition for_range {S : Type} (lo hi : nat) (body : nat -> S -> S) (st : S) : S :=
  fold_left (fun s i => body i s) (seq lo (hi - lo)) st.

(** The numeral a candidate stands for: the prefix followed by the runs of
    5s, 7s, 8s and 9s. *)
Definition c_numeral (c : candidate) : string :=
  str (c_prefix c) +:+ digit_run "5" (c_num5s c) +:+ digit_run "7" (c_num7s c)
    +:+ digit_run "8" (c_num8s c) +:+ digit_run "9" (c_num9s c).

(** The comparison with [max] and the update (lines 176-194 and 213-231):
    [runs] is the text the three [printf] loops write after the prefix. *)
Definition check_record (c : candidate) (persistence : Z) (runs : string)
    (st : state) : state :=
  let e := {| ev_cand := c; ev_persistence := persistence; ev_max := max st |} in
  if max st <? persistence then
    {| max := persistence;
       stdout := stdout st ++ [ {| line_persistence := persistence;
                                   line_numeral := str (c_prefix c) +:+ runs |} ];
       trace := trace st ++ [e] |}
  else
    {| max := max st; stdout := stdout st; trace := trace st ++ [e] |}.

(** Lines 159-196: at least one 5, no 8. *)
Definition family_A (ndigits : nat) (pfx : prefix) : state -> state :=
  let num579s := (ndigits - digits pfx)%nat in
  for_range 0 num579s (fun num79s =>
    let num5s := (num579s - num79s)%nat in
    for_range 0 (S num79s) (fun num9s =>
      let num7s := (num79s - num9s)%nat in
      let num := 5 ^ Z.of_nat num5s in
      let pow := 7 ^ Z.of_nat num7s in
      let num := num * pow in
      let pow := 9 ^ Z.of_nat num9s in
      let num := num * pow in
      let num := num * prod pfx in
      let persistence := wrap (1 + mpz_persistence num) in
      check_record
        {| c_prefix := pfx; c_num5s := num5s; c_num7s := num7s;
           c_num8s := 0; c_num9s := num9s; c_num := num |}
        persistence
        (digit_run "5" num5s +:+ digit_run "7" num7s +:+ digit_run "9" num9s))).

(** Lines 199-233: no 5, any combination of 7, 8 and 9. *)
Definition family_B (ndigits : nat) (pfx : prefix) : state -> state :=
  let num789s := (ndigits - digits pfx)%nat in
  for_range 0 (S num789s) (fun num89s =>
    let num7s := (num789s - num89s)%nat in
    for_range 0 (S num89s) (fun num9s =>
      let num8s := (num89s - num9s)%nat in
      let num := 7 ^ Z.of_nat num7s in
      let pow := 8 ^ Z.of_nat num8s in
      let num := num * pow in
      let pow := 9 ^ Z.of_nat num9s in
      let num := num * pow in
      let num := num * prod pfx in
      let persistence := wrap (1 + mpz_persistence num) in
      check_record
        {| c_prefix := pfx; c_num5s := 0; c_num7s := num7s;
           c_num8s := num8s; c_num9s := num9s; c_num := num |}
        persistence
        (digit_run "7" num7s +:+ digit_run "8" num8s +:+ digit_run "9" num9s))).

(** Body of the loop over the prefixes (lines 148-233). *)
Definition search_prefix (ndigits : nat) (pfx : prefix) (st : state) : state :=
  if (ndigits <? digits pfx)%nat then st
  else
    let st := if negb (Z.land (prod pfx) 1 =? 0) then family_A ndigits pfx st else st in
    family_B ndigits pfx st.

(** Body of the loop over the digit counts (lines 147-234). *)
Definition search_digits (ndigits : nat) : state -> state :=
  for_range 0 NUM_PREFIXES (fun p st =>
    match prefixes !! p with
    | Some pfx => search_prefix ndigits pfx st
    | None => st
    end).

(** [for (unsigned digits = 2; digits <= MAX_DIGITS; digits++)] *)
Definition main_upto (max_digits : nat) : state :=
  for_range 2 (S max_digits) search_digits init_state.

Definition main : state := main_upto MAX_DIGITS.

(** ** [main]: the progress report

    Lines 123-133 and 239-253: the digit counts are grouped in buckets of
    [DIGIT_DIVISOR]; [digits_left] counts the digit counts of each bucket
    that are still to be searched, and a line is written to [stderr] when a
    counter reaches zero.  [stderr] holds the number shown on each line.  The
    array [digits_left] is not initialised by its declaration; every entry is
    assigned by the loop of lines 126-131 before it is read, the model starts
    it from zeros. *)

Definition DIGIT_DIVISOR : Z := 100.

Record progress := {
  digits_left : list Z;
  stderr : list Z
}.

(** [const unsigned digit_bucket_count = MAX_DIGITS / DIGIT_DIVISOR + 1] *)
Definition digit_bucket_count (max_digits : nat) : nat :=
  Z.to_nat (wrap (Z.of_nat max_digits / DIGIT_DIVISOR + 1)).

(** Body of the loop of lines 126-131. *)
Definition init_bucket (max_digits : nat) (i : nat) (dl : list Z) : list Z :=
  if wrap (Z.of_nat max_digits) <? wrap (wrap (Z.of_nat i + 1) * DIGIT_DIVISOR) then
    <[i := wrap (wrap (Z.of_nat max_digits) - wrap (Z.of_nat i * DIGIT_DIVISOR))]> dl
  else
    <[i := DIGIT_DIVISOR]> dl.

(** Lines 124-133, with [digits_left[0] -= 1]. *)
Definition init_progress (max_digits : nat) : progress :=
  let count := digit_bucket_count max_digits in
  let dl := for_range 0 count (init_bucket max_digits) (replicate count 0) in
  {| digits_left := <[0%nat := wrap (dl !!! 0%nat - 1)]> dl; stderr := [] |}.

(** Lines 239-253: [__sync_sub_and_fetch] decrements the counter of the
    bucket and gives its new value. *)
Definition finish_digits (max_digits ndigits : nat) (pr : progress) : progress :=
  let digits_bucket := Z.to_nat (wrap (Z.of_nat ndigits - 1) / DIGIT_DIVISOR) in
  let left := wrap (digits_left pr !!! digits_bucket - 1) in
  let dl := <[digits_bucket := left]> (digits_left pr) in
  if left =? 0 then
    let bucket_digits := wrap (wrap (Z.of_nat digits_bucket + 1) * DIGIT_DIVISOR) in
    let bucket_digits :=
      if wrap (Z.of_nat max_digits) <? bucket_digits then wrap (Z.of_nat max_digits)
      else bucket_digits in
    {| digits_left := dl; stderr := stderr pr ++ [bucket_digits] |}
  else
    {| digits_left := dl; stderr := stderr pr |}.

(** The loop of line 142 on the progress state, and on both states: the
    search of a digit count is followed by its report. *)
Definition main_progress (max_digits : nat) : progress :=
  for_range 2 (S max_digits) (finish_digits max_digits) (init_progress max_digits).

Definition main_full (max_digits : nat) : state * progress :=
  for_range 2 (S max_digits)
    (fun ndigits sp =>
       (search_digits ndigits (fst sp), finish_digits max_digits ndigits (snd sp)))
    (init_state, init_progress max_digits).

(** A progress line is due after the digit count [d]: [d] closes a bucket or
    is the last digit count. *)
Definition reports (max_digits : nat) (d : Z) : bool :=
  (d mod DIGIT_DIVISOR =? 0) || (d =? Z.of_nat max_digits).

(** Digit counts of the bucket [b] above [d], up to [max_digits]. *)
Definition bucket_left (max_digits b d : Z) : Z :=
  Z.max 0 (Z.min (DIGIT_DIVISOR * (b + 1)) max_digits - Z.max (DIGIT_DIVISOR * b) d).

(** The progress state when the digit counts up to [d] are done. *)
Definition progress_inv (max_digits d : nat) (pr : progress) : Prop :=
  length (digits_left pr) = digit_bucket_count max_digits /\
  (forall b, (b < digit_bucket_count max_digits)%nat ->
     digits_left pr !!! b = bucket_left (Z.of_nat max_digits) (Z.of_nat b) (Z.of_nat d)) /\
  stderr pr = List.filter (reports max_digits) (map Z.of_nat (seq 2 (d - 1))).

(** Reading the log: the entry led to a record line, and the line it led
    to. *)
Definition ev_printed (e : eval) : bool := ev_max e <? ev_persistence e.

Definition ev_line (e : eval) : line :=
  {| line_persistence := ev_persistence e; line_numeral := c_numeral (ev_cand e) |}.

(** The value of [max] after the comparison logged by [e]. *)
Definition ev_max_after (e : eval) : Z :=
  if ev_printed e then ev_persistence e else ev_max e.

(** The log [t] starts with [max = m], every entry starts where the entry
    before it ended, and the last one ends with [max = m']. *)
Fixpoint chained (m : Z) (t : list eval) (m' : Z) : Prop :=
  match t with
  | [] => m = m'
  | e :: t' => ev_max e = m /\ chained (ev_max_after e) t' m'
  end.

(** ** The enumeration, as the specification words it

    Family A: [q] in [0, R), [s = R - q] fives, then [d] in [0, q] nines and
    [b = q - d] sevens.  Family B: [m] in [0, R], [b = R - m] sevens, then
    [d] in [0, m] nines and [c = m - d] eights. *)

Definition spec_family_A (R : nat) (pfx : prefix) : list candidate :=
  flat_map (fun q =>
    map (fun d =>
      let s := (R - q)%nat in
      let b := (q - d)%nat in
      {| c_prefix := pfx; c_num5s := s; c_num7s := b; c_num8s := 0; c_num9s := d;
         c_num := 5 ^ Z.of_nat s * 7 ^ Z.of_nat b * 9 ^ Z.of_nat d * prod pfx |})
      (seq 0 (S q)))
    (seq 0 R).

Definition spec_family_B (R : nat) (pfx : prefix) : list candidate :=
  flat_map (fun m =>
    map (fun d =>
      let b := (R - m)%nat in
      let c := (m - d)%nat in
      {| c_prefix := pfx; c_num5s := 0; c_num7s := b; c_num8s := c; c_num9s := d;
         c_num := 7 ^ Z.of_nat b * 8 ^ Z.of_nat c * 9 ^ Z.of_nat d * prod pfx |})
      (seq 0 (S m)))
    (seq 0 (S R)).

(** "Skip any prefix whose [digit_count > D]"; family A is "triggered only
    when [prefix.product] is odd". *)
Definition spec_prefix_cands (ndigits : nat) (pfx : prefix) : list candidate :=
  if (ndigits <? digits pfx)%nat then []
  else
    (if Z.odd (prod pfx) then spec_family_A (ndigits - digits pfx) pfx else [])
    ++ spec_family_B (ndigits - digits pfx) pfx.

Definition spec_digits_cands (ndigits : nat) : list candidate :=
  flat_map (spec_prefix_cands ndigits) prefixes.

Definition spec_enumeration (max_digits : nat) : list candidate :=
  flat_map spec_digits_cands (seq 2 (max_digits - 1)).

(** ** The record, as the specification words it

    "A line is printed exactly when the computed persistence strictly
    exceeds the current max, and max is then set to that persistence": the
    lines written, and the value [max] ends with, when the candidates [cs]
    are compared in this order starting from [max = m]. *)
Fixpoint spec_records (m : Z) (cs : list candidate) : list line * Z :=
  match cs with
  | [] => ([], m)
  | c :: cs' =>
      let p := wrap (1 + mpz_persistence (c_num c)) in
      if m <? p then
        let r := spec_records p cs' in
        ({| line_persistence := p; line_numeral := c_numeral c |} :: fst r, snd r)
      else spec_records m cs'
  end.

(** ** Reading a run from its log

    Between the states [st] and [st'] the program made the comparisons
    [new], in this order: they were appended to the log, each one that
    exceeded [max] wrote its line, and [max] went through them. *)
Definition run_log (st st' : state) (new : list eval) : Prop :=
  trace st' = trace st ++ new /\
  stdout st' = stdout st ++ map ev_line (List.filter ev_printed new) /\
  chained (max st) new (max st').

(** The comparisons made between [st] and [st'] were those of the
    candidates [cs], each with the persistence computed from its [num]. *)
Definition logged (st st' : state) (cs : list candidate) : Prop :=
  exists new,
    run_log st st' new /\ map ev_cand new = cs /\
    Forall (fun e => ev_persistence e = wrap (1 + mpz_persistence (c_num (ev_cand e)))) new.

(** The record as every comparison leaves it: the persistences printed so
    far increase strictly, and each lies above 2 and at most at [max]. *)
Definition record_ok (st : state) : Prop :=
  StronglySorted Z.lt (map line_persistence (stdout st)) /\
  Forall (fun l => 2 < line_persistence l <= max st) (stdout st) /\
  2 <= max st.

(** The text of a record line: [printf("%02u:  %s", ...)], then the runs and
    the newline. *)
Fixpoint decimal_text (k : nat) (n : Z) : string :=
  match k with
  | O => EmptyString
  | S k' =>
      let d := String (ascii_of_nat (Z.to_nat (48 + n mod 10))) EmptyString in
      if n <? 10 then d else decimal_text k' (n / 10) +:+ d
  end.

Definition format_02u (n : Z) : string :=
  let s := decimal_text (S (Z.to_nat (Z.log2 n))) n in
  if (String.length s <? 2)%nat then "0" +:+ s else s.

Definition render_line (l : line) : string :=
  format_02u (line_persistence l) +:+ ":  " +:+ line_numeral l
    +:+ String (ascii_of_nat 10) EmptyString.

(** The digits the loop of [mul_digits] still has to read when [in] holds
    [n]: none when [n] is zero. *)
Definition pending_digits (n : Z) : list Z :=
  if n <=? 0 then [] else spec_digits n.

(** The histogram after the digits of [l] have been counted into [hist]. *)
Definition tally (hist : list Z) (l : list Z) : list Z :=
  fold_left hist_incr l hist.

(** Number of occurrences of [d] in a list of digits. *)
Definition occ (l : list Z) (d : Z) : Z := Z.of_nat (count_occ Z.eq_dec l d).

(** Exponents of 2 and 3 in a product of digits: 4 = 2^2, 6 = 2 * 3,
    8 = 2^3 and 9 = 3^2. *)
Definition exp2 (l : list Z) : Z := occ l 2 + 2 * occ l 4 + occ l 6 + 3 * occ l 8.

Definition exp3 (l : list Z) : Z := occ l 3 + occ l 6 + 2 * occ l 9.

(** The regrouped counts of §4.1, over the numeral of [n]:
    [h2' = h[2] + 2 h[4] + h[6] + 3 h[8]] and [h3' = h[3] + h[6] + 2 h[9]]. *)
Definition hist2 (n : Z) : Z :=
  digit_count 2 n + 2 * digit_count 4 n + digit_count 6 n + 3 * digit_count 8 n.

Definition hist3 (n : Z) : Z :=
  digit_count 3 n + digit_count 6 n + 2 * digit_count 9 n.

(** "[2^h2' * 3^h3' * 5^h5 * 7^h7]" *)
Definition prime_form (n : Z) : Z :=
  2 ^ hist2 n * 3 ^ hist3 n * 5 ^ digit_count 5 n * 7 ^ digit_count 7 n.

(** The four exponents fit the [unsigned] entries of the histogram. *)
Definition fits_unsigned (n : Z) : Prop :=
  hist2 n < 2 ^ UINT_BITS /\ hist3 n < 2 ^ UINT_BITS /\
  digit_count 5 n < 2 ^ UINT_BITS /\ digit_count 7 n < 2 ^ UINT_BITS.

(** A number whose numeral is the digit [d] written [k] times. *)
Definition rep_digit (d k : Z) : Z := d * ((10 ^ k - 1) / 9).

(** * Loops *)

Section WhileFacts.
Context {St : Type}.
Variable cond : St -> bool.
Variable body : St -> St.
Variable size : St -> Z.

Lemma iter_pow_spec (k : nat) : forall s,
  match iter_pow cond body k s with
  | inl r => exists n, (n < 2 ^ k)%nat /\ exits_after cond body s n r
  | inr s' =>
      s' = Nat.iter (2 ^ k) body s /\
      forall m, (m < 2 ^ k)%nat -> cond (Nat.iter m body s) = true
  end.
Proof.
  induction k as [|k IH]; intros s; simpl.
  - destruct (cond s) eqn:Hc.
    + split; [reflexivity|]. intros m Hm. assert (m = 0%nat) as -> by lia. exact Hc.
    + exists 0%nat. split; [lia|]. repeat split; [exact Hc|]. intros m Hm; lia.
  - pose proof (IH s) as H1.
    destruct (iter_pow cond body k s) as [r|s1].
    + destruct H1 as (n & Hn & He). exists n. split; [lia | exact He].
    + destruct H1 as [-> Hall]. pose proof (IH (Nat.iter (2 ^ k) body s)) as H2.
      destruct (iter_pow cond body k (Nat.iter (2 ^ k) body s)) as [r|s2].
      * destruct H2 as (n & Hn & Hr & Hc & Hlt).
        exists (n + 2 ^ k)%nat. split; [lia|]. repeat split.
        -- rewrite Nat.iter_add. exact Hr.
        -- exact Hc.
        -- intros m Hm. destruct (Nat.lt_ge_cases m (2 ^ k)) as [Hs|Hs].
           ++ apply Hall, Hs.
           ++ replace m with ((m - 2 ^ k) + 2 ^ k)%nat by lia.
              rewrite Nat.iter_add. apply Hlt. lia.
      * destruct H2 as [-> Hall2]. split.
        -- rewrite <- Nat.iter_add. f_equal. lia.
        -- intros m Hm. destruct (Nat.lt_ge_cases m (2 ^ k)) as [Hs|Hs].
           ++ apply Hall, Hs.
           ++ replace m with ((m - 2 ^ k) + 2 ^ k)%nat by lia.
              rewrite Nat.iter_add. apply Hall2. lia.
Qed.

Lemma exits_after_unique s n1 r1 n2 r2 :
  exits_after cond body s n1 r1 -> exits_after cond body s n2 r2 ->
  n1 = n2 /\ r1 = r2.
Proof.
  intros (E1 & C1 & L1) (E2 & C2 & L2).
  assert (n1 = n2) as ->.
  { destruct (Nat.lt_trichotomy n1 n2) as [H|[H|H]]; [|exact H|].
    - specialize (L2 _ H). congruence.
    - specialize (L1 _ H). congruence. }
  split; congruence.
Qed.

Lemma exits_after_step s n r :
  cond s = true -> exits_after cond body s n r ->
  exists n', n = S n' /\ exits_after cond body (body s) n' r.
Proof.
  intros Hc (E & C & L). destruct n as [|n'].
  - simpl in E. congruence.
  - exists n'. split; [reflexivity|]. repeat split.
    + rewrite E. apply Nat.iter_succ_r.
    + exact C.
    + intros m Hm. rewrite <- Nat.iter_succ_r. apply L. lia.
Qed.

Lemma exits_after_stop s n r :
  cond s = false -> exits_after cond body s n r -> n = 0%nat /\ r = s.
Proof.
  intros Hc (E & C & L). destruct n as [|n'].
  - split; [reflexivity | exact E].
  - specialize (L 0%nat ltac:(lia)). simpl in L. congruence.
Qed.

Lemma iter_pow_stop (k : nat) s :
  cond s = false -> iter_pow cond body k s = inl s.
Proof.
  intros Hc. induction k as [|k IH]; simpl.
  - rewrite Hc. reflexivity.
  - rewrite IH. reflexivity.
Qed.

Lemma while_stop s : cond s = false -> while cond body size s = s.
Proof. intros Hc. unfold while. rewrite iter_pow_stop by exact Hc. reflexivity. Qed.

(** From here on every iteration makes the size smaller, and keeps it
    non-negative. *)
Hypothesis size_decr : forall s, cond s = true -> 0 <= size (body s) < size s.

Lemma iter_size (n : nat) : forall s,
  (forall m, (m < n)%nat -> cond (Nat.iter m body s) = true) ->
  size (Nat.iter n body s) + Z.of_nat n <= size s /\
  (n <> 0%nat -> 0 <= size (Nat.iter n body s)).
Proof.
  induction n as [|n IH]; intros s Hall.
  - simpl. split; [lia | congruence].
  - destruct (IH s) as [IH1 _]. { intros m Hm. apply Hall. lia. }
    pose proof (size_decr _ (Hall n ltac:(lia))) as Hd.
    rewrite Nat.iter_succ. split; [lia|]. intros _. lia.
Qed.

Lemma fuel_enough (k : nat) s :
  size s < 2 ^ Z.of_nat k -> exists r, iter_pow cond body k s = inl r.
Proof.
  intros Hk. pose proof (iter_pow_spec k s) as H.
  destruct (iter_pow cond body k s) as [r|s'].
  - exists r. reflexivity.
  - exfalso. destruct H as [-> Hall].
    destruct (iter_size (2 ^ k) s Hall) as [H1 H2].
    assert (2 ^ k <> 0)%nat as Hnz by (apply Nat.pow_nonzero; lia).
    specialize (H2 Hnz).
    assert (Z.of_nat (2 ^ k) = 2 ^ Z.of_nat k) as Hp
      by (rewrite Nat2Z.inj_pow; reflexivity).
    lia.
Qed.

Lemma loop_fuel_enough s : size s < 2 ^ Z.of_nat (loop_fuel size s).
Proof.
  unfold loop_fuel. destruct (Z_lt_le_dec 0 (size s)) as [Hp|Hn].
  - pose proof (Z.log2_spec _ Hp) as [_ H]. pose proof (Z.log2_nonneg (size s)).
    rewrite Nat2Z.inj_succ, Z2Nat.id by lia. exact H.
  - assert (0 < 2 ^ Z.of_nat (S (Z.to_nat (Z.log2 (size s))))) by (apply Z.pow_pos_nonneg; lia).
    lia.
Qed.

(** Termination: with the fuel taken from the size, and with any larger
    fuel, the guard fails after finitely many iterations. *)
Lemma while_fuel (k : nat) s :
  (loop_fuel size s <= k)%nat -> iter_pow cond body k s = inl (while cond body size s).
Proof.
  intros Hk. unfold while.
  destruct (fuel_enough _ s (loop_fuel_enough s)) as [r Hr]. rewrite Hr.
  assert (size s < 2 ^ Z.of_nat k) as Hs.
  { eapply Z.lt_le_trans; [apply loop_fuel_enough|].
    apply Z.pow_le_mono_r; lia. }
  destruct (fuel_enough _ s Hs) as [r' Hr']. rewrite Hr'. f_equal.
  pose proof (iter_pow_spec k s) as H1. rewrite Hr' in H1.
  pose proof (iter_pow_spec (loop_fuel size s) s) as H2. rewrite Hr in H2.
  destruct H1 as (n1 & _ & E1), H2 as (n2 & _ & E2).
  apply (exits_after_unique _ _ _ _ _ E1 E2).
Qed.

Lemma while_exits s : exists n, exits_after cond body s n (while cond body size s).
Proof.
  pose proof (while_fuel _ s (Nat.le_refl _)) as H.
  pose proof (iter_pow_spec (loop_fuel size s) s) as H1. rewrite H in H1.
  destruct H1 as (n & _ & E). exists n. exact E.
Qed.

(** The equation of the C loop. *)
Lemma while_unfold s :
  while cond body size s = if cond s then while cond body size (body s) else s.
Proof.
  destruct (while_exits s) as (n & E). destruct (cond s) eqn:Hc.
  - destruct (exits_after_step _ _ _ Hc E) as (n' & _ & E').
    destruct (while_exits (body s)) as (n2 & E2).
    apply (exits_after_unique _ _ _ _ _ E' E2).
  - apply (exits_after_stop _ _ _ Hc E).
Qed.

Lemma while_cond s : cond (while cond body size s) = false.
Proof. destruct (while_exits s) as (n & _ & C & _). exact C. Qed.

(** Loop invariants. *)
Lemma while_invariant (P : St -> Prop) s :
  P s -> (forall t, P t -> cond t = true -> P (body t)) ->
  P (while cond body size s).
Proof.
  intros Hs Hstep. destruct (while_exits s) as (n & E & _ & L). rewrite E.
  clear E. induction n as [|n IH]; [exact Hs|].
  rewrite Nat.iter_succ. apply Hstep.
  - apply IH. intros m Hm. apply L. lia.
  - apply L. lia.
Qed.
End WhileFacts.

(** * Decimal digits *)

Lemma log2_fuel_bound n : n < 2 * 2 ^ Z.of_nat (Z.to_nat (Z.log2 n)).
Proof.
  pose proof (Z.log2_nonneg n) as Hl. rewrite Z2Nat.id by exact Hl.
  destruct (Z_lt_le_dec 0 n) as [Hp|Hn].
  - pose proof (Z.log2_spec _ Hp) as [_ H].
    rewrite Z.pow_succ_r in H by exact Hl. exact H.
  - assert (0 < 2 ^ Z.log2 n) by (apply Z.pow_pos_nonneg; lia). lia.
Qed.

Lemma digits_fuel_indep (k1 : nat) : forall (k2 : nat) n,
  n < 2 * 2 ^ Z.of_nat k1 -> n < 2 * 2 ^ Z.of_nat k2 ->
  digits_fuel k1 n = digits_fuel k2 n.
Proof.
  induction k1 as [|k1 IH]; intros [|k2] n H1 H2; simpl digits_fuel; try reflexivity.
  - change (2 ^ Z.of_nat 0) with 1 in H1.
    destruct (Z.ltb_spec n 10); [reflexivity | lia].
  - change (2 ^ Z.of_nat 0) with 1 in H2.
    destruct (Z.ltb_spec n 10); [reflexivity | lia].
  - destruct (Z.ltb_spec n 10); [reflexivity|]. f_equal.
    rewrite Nat2Z.inj_succ, Z.pow_succ_r in H1, H2 by lia.
    apply IH; apply Z.div_lt_upper_bound; lia.
Qed.

Lemma spec_digits_small n : n < 10 -> spec_digits n = [n].
Proof.
  intros H. unfold spec_digits. destruct (Z.to_nat (Z.log2 n)); simpl; [reflexivity|].
  destruct (Z.ltb_spec n 10); [reflexivity | lia].
Qed.

Lemma spec_digits_step n :
  10 <= n -> spec_digits n = n mod 10 :: spec_digits (n / 10).
Proof.
  intros H. unfold spec_digits at 1.
  pose proof (log2_fuel_bound n) as Hb.
  destruct (Z.to_nat (Z.log2 n)) as [|k] eqn:Hk.
  - change (2 ^ Z.of_nat 0) with 1 in Hb. lia.
  - simpl. destruct (Z.ltb_spec n 10); [lia|]. f_equal. unfold spec_digits.
    apply digits_fuel_indep; [|apply log2_fuel_bound].
    rewrite Nat2Z.inj_succ, Z.pow_succ_r in Hb by lia.
    apply Z.div_lt_upper_bound; lia.
Qed.

Lemma pending_digits_zero n : n <= 0 -> pending_digits n = [].
Proof. intros H. unfold pending_digits. destruct (Z.leb_spec n 0); [reflexivity | lia]. Qed.

Lemma pending_digits_pos n : 0 < n -> pending_digits n = spec_digits n.
Proof. intros H. unfold pending_digits. destruct (Z.leb_spec n 0); [lia | reflexivity]. Qed.

Lemma pending_digits_step n :
  0 < n -> pending_digits n = n mod 10 :: pending_digits (n / 10).
Proof.
  intros H. rewrite (pending_digits_pos n H).
  destruct (Z_lt_le_dec n 10) as [Hs|Hl].
  - rewrite spec_digits_small by exact Hs.
    rewrite Z.mod_small, Z.div_small by lia. reflexivity.
  - rewrite spec_digits_step by exact Hl. f_equal.
    symmetry. apply pending_digits_pos.
    apply Z.div_str_pos. lia.
Qed.

(** Every digit lies between 0 and 9. *)
Lemma pending_digits_range n :
  0 <= n -> Forall (fun d => 0 <= d <= 9) (pending_digits n).
Proof.
  intros Hn. pattern n. apply Z_lt_induction; [|exact Hn]. clear n Hn.
  intros n IH. destruct (Z_lt_le_dec 0 n) as [Hp|Hz].
  - rewrite pending_digits_step by exact Hp. constructor.
    + pose proof (Z.mod_pos_bound n 10). lia.
    + apply IH. split; [apply Z.div_pos; lia | apply Z.div_lt; lia].
  - rewrite pending_digits_zero by exact Hz. constructor.
Qed.

Lemma spec_digits_range n :
  0 <= n -> Forall (fun d => 0 <= d <= 9) (spec_digits n).
Proof.
  intros Hn. destruct (Z_lt_le_dec 0 n) as [Hp|Hz].
  - rewrite <- pending_digits_pos by exact Hp. apply pending_digits_range, Hn.
  - rewrite spec_digits_small by lia. constructor; [lia | constructor].
Qed.

(** The digit product is never larger than the number, and it is smaller
    from two digits on. *)
Lemma spec_digit_product_step n :
  10 <= n -> spec_digit_product n = n mod 10 * spec_digit_product (n / 10).
Proof.
  intros H. unfold spec_digit_product. rewrite spec_digits_step by exact H. reflexivity.
Qed.

Lemma spec_digit_product_small n : n < 10 -> spec_digit_product n = n.
Proof.
  intros H. unfold spec_digit_product. rewrite spec_digits_small by exact H.
  simpl. lia.
Qed.

Lemma spec_digit_product_bounds n :
  0 <= n -> 0 <= spec_digit_product n <= n.
Proof.
  intros Hn. generalize Hn. pattern n. apply Z_lt_induction; [|exact Hn].
  clear n Hn. intros n IH Hn. destruct (Z_lt_le_dec n 10) as [Hs|Hl].
  - rewrite spec_digit_product_small by exact Hs. lia.
  - rewrite spec_digit_product_step by exact Hl.
    pose proof (Z.mod_pos_bound n 10 ltac:(lia)) as Hm.
    assert (0 <= n / 10 < n) as Hq
      by (split; [apply Z.div_pos; lia | apply Z.div_lt; lia]).
    pose proof (IH _ Hq ltac:(lia)) as Hp.
    pose proof (Z.div_mod n 10 ltac:(lia)) as Hd.
    split; [apply Z.mul_nonneg_nonneg; lia | nia].
Qed.

Lemma spec_digit_product_lt n :
  10 <= n -> 0 <= spec_digit_product n < n.
Proof.
  intros Hl. rewrite spec_digit_product_step by exact Hl.
  pose proof (Z.mod_pos_bound n 10 ltac:(lia)) as Hm.
  assert (0 < n / 10) as Hq by (apply Z.div_str_pos; lia).
  pose proof (spec_digit_product_bounds (n / 10) ltac:(lia)) as Hp.
  pose proof (Z.div_mod n 10 ltac:(lia)) as Hd.
  split; [apply Z.mul_nonneg_nonneg; lia | nia].
Qed.

(** * Arithmetic of [unsigned] *)

Lemma wrap_range x : 0 <= wrap x < 2 ^ UINT_BITS.
Proof. apply Z.mod_pos_bound. reflexivity. Qed.

Lemma wrap_small x : 0 <= x < 2 ^ UINT_BITS -> wrap x = x.
Proof. apply Z.mod_small. Qed.

Lemma wrap_idemp x : wrap (wrap x) = wrap x.
Proof. apply wrap_small, wrap_range. Qed.

Lemma wrap_add_l a b : wrap (wrap a + b) = wrap (a + b).
Proof. apply Zplus_mod_idemp_l. Qed.

Lemma wrap_add_r a b : wrap (a + wrap b) = wrap (a + b).
Proof. apply Zplus_mod_idemp_r. Qed.

Lemma wrap_mul_l a b : wrap (wrap a * b) = wrap (a * b).
Proof. apply Zmult_mod_idemp_l. Qed.

Lemma wrap_le x : 0 <= x -> wrap x <= x.
Proof. intros H. apply Z.mod_le; [exact H | reflexivity]. Qed.

(** * The histogram of [mul_digits] *)

Lemma occ_nil d : occ [] d = 0.
Proof. reflexivity. Qed.

Lemma occ_cons_eq l d : occ (d :: l) d = 1 + occ l d.
Proof. unfold occ. rewrite count_occ_cons_eq by reflexivity. lia. Qed.

Lemma occ_cons_neq l r d : r <> d -> occ (r :: l) d = occ l d.
Proof. intros H. unfold occ. rewrite count_occ_cons_neq by exact H. reflexivity. Qed.

Lemma occ_nonneg l d : 0 <= occ l d.
Proof. unfold occ. lia. Qed.

Lemma occ_le_length l d : occ l d <= Z.of_nat (length l).
Proof. unfold occ. pose proof (count_occ_bound Z.eq_dec d l). lia. Qed.

Lemma hist_incr_length hist r : length (hist_incr hist r) = length hist.
Proof. unfold hist_incr. apply length_insert. Qed.

Lemma hist_incr_lookup hist r (d : nat) :
  0 <= r -> (Z.to_nat r < length hist)%nat ->
  hist_incr hist r !!! d =
    if r =? Z.of_nat d then wrap (hist !!! d + 1) else hist !!! d.
Proof.
  intros Hr Hlen. unfold hist_incr. destruct (Z.eqb_spec r (Z.of_nat d)) as [->|Hne].
  - rewrite Nat2Z.id in *. apply list_lookup_total_insert_eq, Hlen.
  - apply list_lookup_total_insert_ne. lia.
Qed.

(** After counting the digits of [l], entry [d] holds the count of [d],
    reduced modulo [2^32]. *)
Lemma tally_spec l : forall hist,
  length hist = 10%nat ->
  (forall d, (d < 10)%nat -> wrap (hist !!! d) = hist !!! d) ->
  Forall (fun r => 1 <= r <= 9) l ->
  length (tally hist l) = 10%nat /\
  forall d, (d < 10)%nat ->
    tally hist l !!! d = wrap (hist !!! d + occ l (Z.of_nat d)).
Proof.
  induction l as [|r l IH]; intros hist Hlen Hok Hl.
  - split; [exact Hlen|]. intros d Hd. simpl. rewrite occ_nil, Z.add_0_r.
    symmetry. apply Hok, Hd.
  - inversion Hl as [|? ? Hr Hl']; subst.
    assert (Z.to_nat r < length hist)%nat as Hidx by lia.
    destruct (IH (hist_incr hist r)) as [IHlen IHlk]; [| |exact Hl'|].
    + rewrite hist_incr_length. exact Hlen.
    + intros d Hd. rewrite hist_incr_lookup by lia.
      destruct (r =? Z.of_nat d); [apply wrap_idemp | apply Hok, Hd].
    + split; [exact IHlen|]. intros d Hd.
      change (tally hist (r :: l)) with (tally (hist_incr hist r) l).
      rewrite IHlk by exact Hd. rewrite hist_incr_lookup by lia.
      destruct (Z.eqb_spec r (Z.of_nat d)) as [->|Hne].
      * rewrite occ_cons_eq, wrap_add_l. f_equal. lia.
      * rewrite occ_cons_neq by exact Hne. reflexivity.
Qed.

Lemma hist_init_lookup (d : nat) : (d < 10)%nat -> hist_init !!! d = 0.
Proof.
  intros Hd. do 10 (destruct d as [|d]; [reflexivity|]). lia.
Qed.

Lemma tally_init l (d : nat) :
  Forall (fun r => 1 <= r <= 9) l -> (d < 10)%nat ->
  tally hist_init l !!! d = wrap (occ l (Z.of_nat d)).
Proof.
  intros Hl Hd. destruct (tally_spec l hist_init) as [_ H].
  - reflexivity.
  - intros d' Hd'. rewrite hist_init_lookup by exact Hd'. reflexivity.
  - exact Hl.
  - rewrite H, hist_init_lookup by exact Hd. reflexivity.
Qed.

(** * The digit loop of [mul_digits] *)

Lemma digit_size_decr s :
  digit_cond s = true -> 0 <= ds_in (digit_body s) < ds_in s.
Proof.
  unfold digit_cond. intros H. apply andb_true_iff in H as [H _].
  apply Z.ltb_lt in H.
  assert (ds_in (digit_body s) = ds_in s / 10) as ->.
  { unfold digit_body. rewrite Z.quot_div_nonneg by lia.
    destruct (_ =? 0); reflexivity. }
  split; [apply Z.div_pos; lia | apply Z.div_lt; lia].
Qed.

Lemma digit_body_pos n hist :
  0 < n ->
  digit_body {| ds_in := n; ds_hist := hist; ds_returned := false |} =
    if n mod 10 =? 0 then
      {| ds_in := n / 10; ds_hist := hist; ds_returned := true |}
    else
      {| ds_in := n / 10; ds_hist := hist_incr hist (n mod 10); ds_returned := false |}.
Proof.
  intros Hn. unfold digit_body. simpl.
  rewrite Z.quot_div_nonneg, Z.rem_mod_nonneg by lia.
  pose proof (Z.mod_pos_bound n 10 ltac:(lia)) as Hm.
  rewrite Z.abs_eq by lia. reflexivity.
Qed.

(** The loop stops at the first zero digit, and otherwise counts every
    digit of [n]. *)
Lemma digit_while_spec n :
  0 <= n -> forall hist,
  let s := digit_while {| ds_in := n; ds_hist := hist; ds_returned := false |} in
  (In 0 (pending_digits n) -> ds_returned s = true) /\
  (~ In 0 (pending_digits n) ->
   s = {| ds_in := 0; ds_hist := tally hist (pending_digits n); ds_returned := false |}).
Proof.
  intros Hn. generalize Hn. pattern n. apply Z_lt_induction; [|exact Hn].
  clear n Hn. intros n IH Hn hist. cbv zeta. unfold digit_while.
  rewrite (while_unfold _ _ _ digit_size_decr).
  destruct (Z_lt_le_dec 0 n) as [Hp|Hz].
  - assert (digit_cond {| ds_in := n; ds_hist := hist; ds_returned := false |} = true)
      as -> by (unfold digit_cond; simpl; rewrite andb_true_r; apply Z.ltb_lt, Hp).
    rewrite digit_body_pos, (pending_digits_step n) by exact Hp.
    assert (0 <= n / 10 < n) as Hq
      by (split; [apply Z.div_pos; lia | apply Z.div_lt; lia]).
    destruct (Z.eqb_spec (n mod 10) 0) as [Hr|Hr].
    + rewrite while_stop by (unfold digit_cond; apply andb_false_r).
      simpl. split; [reflexivity|].
      intros Hnot. exfalso. apply Hnot. left. exact Hr.
    + destruct (IH _ Hq ltac:(lia) (hist_incr hist (n mod 10))) as [IH1 IH2].
      split.
      * intros [Hin|Hin]; [congruence | apply IH1, Hin].
      * intros Hnot. apply IH2. intros Hin. apply Hnot. right. exact Hin.
  - assert (digit_cond {| ds_in := n; ds_hist := hist; ds_returned := false |} = false)
      as -> by (unfold digit_cond; simpl; rewrite andb_true_r; apply Z.ltb_ge, Hz).
    assert (n = 0) as -> by lia. split; [intros []|].
    intros _. reflexivity.
Qed.

(** * The regrouped histogram *)

Lemma recompose_eq hist :
  recompose hist =
    2 ^ (hist !!! 2%nat) * 3 ^ (hist !!! 3%nat) * 5 ^ (hist !!! 5%nat) * 7 ^ (hist !!! 7%nat).
Proof.
  unfold recompose.
  destruct (Z.eqb_spec (hist !!! 3%nat) 0) as [->|_];
  destruct (Z.eqb_spec (hist !!! 5%nat) 0) as [->|_];
  destruct (Z.eqb_spec (hist !!! 7%nat) 0) as [->|_];
  rewrite ?Z.pow_0_r; ring.
Qed.

Lemma regroup_tally l :
  Forall (fun r => 1 <= r <= 9) l ->
  let hist := regroup (tally hist_init l) in
  hist !!! 2%nat = wrap (exp2 l) /\ hist !!! 3%nat = wrap (exp3 l) /\
  hist !!! 5%nat = wrap (occ l 5) /\ hist !!! 7%nat = wrap (occ l 7).
Proof.
  intros Hl. cbv zeta. unfold regroup.
  destruct (tally_spec l hist_init) as [Hlen _];
    [reflexivity | intros d Hd; rewrite hist_init_lookup by exact Hd; reflexivity
    | exact Hl |].
  set (h := tally hist_init l) in *.
  assert (forall d, (d < 10)%nat -> h !!! d = wrap (occ l (Z.of_nat d))) as Hh
    by (intros d Hd; apply tally_init; assumption).
  repeat split.
  - rewrite list_lookup_total_insert_ne by lia.
    rewrite list_lookup_total_insert_eq by lia.
    rewrite (Hh 2%nat), (Hh 4%nat), (Hh 6%nat), (Hh 8%nat) by lia.
    change (Z.of_nat 2) with 2. change (Z.of_nat 4) with 4.
    change (Z.of_nat 6) with 6. change (Z.of_nat 8) with 8.
    rewrite !wrap_mul_l.
    rewrite (wrap_add_l (occ l 4 * 2)), (wrap_add_r (occ l 4 * 2)).
    rewrite (wrap_add_l (occ l 4 * 2 + occ l 6)), (wrap_add_r (occ l 4 * 2 + occ l 6)).
    rewrite wrap_add_l, wrap_add_r. unfold exp2. f_equal. ring.
  - rewrite list_lookup_total_insert_eq by (rewrite length_insert; lia).
    rewrite !list_lookup_total_insert_ne by lia.
    rewrite (Hh 3%nat), (Hh 6%nat), (Hh 9%nat) by lia.
    change (Z.of_nat 3) with 3. change (Z.of_nat 6) with 6.
    change (Z.of_nat 9) with 9.
    rewrite wrap_mul_l.
    rewrite (wrap_add_l (occ l 6)), (wrap_add_r (occ l 6)).
    rewrite wrap_add_l, wrap_add_r. unfold exp3. f_equal. ring.
  - rewrite !list_lookup_total_insert_ne by lia. apply (Hh 5%nat). lia.
  - rewrite !list_lookup_total_insert_ne by lia. apply (Hh 7%nat). lia.
Qed.

Lemma nonzero_digits l :
  Forall (fun d => 0 <= d <= 9) l -> ~ In 0 l -> Forall (fun r => 1 <= r <= 9) l.
Proof.
  intros Hr Hnz. rewrite List.Forall_forall in *. intros r Hin.
  pose proof (Hr _ Hin). assert (r <> 0) by (intros ->; exact (Hnz Hin)). lia.
Qed.

(** What [mul_digits] returns, by cases on the numeral of its argument. *)
Lemma mul_digits_zero_digit n :
  1 <= n -> In 0 (spec_digits n) -> mul_digits n = 0.
Proof.
  intros Hn Hin. unfold mul_digits, digit_loop.
  destruct (digit_while_spec n ltac:(lia) hist_init) as [H _].
  rewrite pending_digits_pos in H by lia. rewrite (H Hin). reflexivity.
Qed.

Lemma mul_digits_nonzero_digits n :
  1 <= n -> ~ In 0 (spec_digits n) ->
  mul_digits n =
    2 ^ wrap (exp2 (spec_digits n)) * 3 ^ wrap (exp3 (spec_digits n))
    * 5 ^ wrap (occ (spec_digits n) 5) * 7 ^ wrap (occ (spec_digits n) 7).
Proof.
  intros Hn Hnz. unfold mul_digits, digit_loop.
  destruct (digit_while_spec n ltac:(lia) hist_init) as [_ H].
  rewrite pending_digits_pos in H by lia. rewrite (H Hnz). simpl ds_returned.
  cbv iota. simpl ds_hist. rewrite recompose_eq.
  destruct (regroup_tally (spec_digits n)) as (-> & -> & -> & ->).
  - apply nonzero_digits; [apply spec_digits_range; lia | exact Hnz].
  - reflexivity.
Qed.

Lemma mul_digits_nonpos n : n <= 0 -> mul_digits n = 1.
Proof.
  intros Hn. unfold mul_digits, digit_loop, digit_while.
  rewrite while_stop; [reflexivity|].
  unfold digit_cond. simpl. rewrite andb_true_r. apply Z.ltb_ge, Hn.
Qed.

(** * The product of a list of digits, by prime factor *)

Lemma occ_cons l r d : occ (r :: l) d = (if r =? d then 1 else 0) + occ l d.
Proof.
  destruct (Z.eqb_spec r d) as [->|Hne].
  - apply occ_cons_eq.
  - rewrite occ_cons_neq by exact Hne. lia.
Qed.

Lemma list_product_factor l :
  Forall (fun r => 1 <= r <= 9) l ->
  list_product l = 2 ^ exp2 l * 3 ^ exp3 l * 5 ^ occ l 5 * 7 ^ occ l 7.
Proof.
  induction l as [|r l IH]; intros Hl.
  - reflexivity.
  - inversion Hl as [|? ? Hr Hl']; subst. specialize (IH Hl').
    change (list_product (r :: l)) with (r * list_product l). rewrite IH.
    unfold exp2, exp3. rewrite !occ_cons.
    pose proof (occ_nonneg l 2). pose proof (occ_nonneg l 3).
    pose proof (occ_nonneg l 4). pose proof (occ_nonneg l 5).
    pose proof (occ_nonneg l 6). pose proof (occ_nonneg l 7).
    pose proof (occ_nonneg l 8). pose proof (occ_nonneg l 9).
    assert (r = 1 \/ r = 2 \/ r = 3 \/ r = 4 \/ r = 5 \/ r = 6 \/ r = 7 \/ r = 8 \/ r = 9)
      as Hcase by lia.
    destruct Hcase as [->|[->|[->|[->|[->|[->|[->|[->| ->]]]]]]]];
      cbn [Z.eqb Pos.eqb];
      rewrite ?Z.add_0_l;
      repeat match goal with
      | |- context [?b ^ (1 + ?e)] => rewrite (Z.pow_add_r b 1 e) by lia
      | |- context [?b ^ (?x + ?y)] => rewrite (Z.pow_add_r b x y) by lia
      | |- context [?b ^ (?k * (1 + ?e))] =>
          replace (k * (1 + e)) with (k + k * e) by ring
      end;
      rewrite ?Z.pow_1_r; change (2 ^ 2) with 4; change (2 ^ 3) with 8;
      change (3 ^ 2) with 9; ring.
Qed.

Lemma list_product_zero l : In 0 l -> list_product l = 0.
Proof.
  induction l as [|r l IH]; intros Hin; [destruct Hin|].
  change (list_product (r :: l)) with (r * list_product l).
  destruct Hin as [->|Hin]; [reflexivity|]. rewrite IH by exact Hin. ring.
Qed.

(** A digit is counted once: the eight counts used by [mul_digits] add up
    to at most the number of digits. *)
Lemma occ_sum_le l :
  occ l 2 + occ l 3 + occ l 4 + occ l 5 + occ l 6 + occ l 7 + occ l 8 + occ l 9
  <= Z.of_nat (length l).
Proof.
  induction l as [|r l IH]; [reflexivity|].
  rewrite !occ_cons. change (length (r :: l)) with (S (length l)).
  rewrite Nat2Z.inj_succ.
  repeat match goal with
  | |- context [?x =? ?d] => destruct (Z.eqb_spec x d); subst; cbn [Z.eqb Pos.eqb]
  end; lia.
Qed.

Lemma exponents_le_length l :
  0 <= exp2 l <= 3 * Z.of_nat (length l) /\ 0 <= exp3 l <= 3 * Z.of_nat (length l) /\
  0 <= occ l 5 <= 3 * Z.of_nat (length l) /\ 0 <= occ l 7 <= 3 * Z.of_nat (length l).
Proof.
  pose proof (occ_sum_le l). unfold exp2, exp3.
  pose proof (occ_nonneg l 2). pose proof (occ_nonneg l 3).
  pose proof (occ_nonneg l 4). pose proof (occ_nonneg l 5).
  pose proof (occ_nonneg l 6). pose proof (occ_nonneg l 7).
  pose proof (occ_nonneg l 8). pose proof (occ_nonneg l 9).
  lia.
Qed.

(** The wrap-around can only lose factors: [mul_digits] never exceeds the
    digit product. *)
Lemma pow_wrap_le b e : 0 < b -> 0 <= e -> 0 < b ^ wrap e <= b ^ e.
Proof.
  intros Hb He. pose proof (wrap_range e) as [Hw _]. split.
  - apply Z.pow_pos_nonneg; assumption.
  - apply Z.pow_le_mono_r; [exact Hb | apply wrap_le, He].
Qed.

Lemma mul_digits_le_product n :
  1 <= n -> 0 <= mul_digits n <= spec_digit_product n.
Proof.
  intros Hn. destruct (in_dec Z.eq_dec 0 (spec_digits n)) as [Hz|Hnz].
  - rewrite mul_digits_zero_digit by assumption. unfold spec_digit_product.
    rewrite list_product_zero by exact Hz. lia.
  - rewrite mul_digits_nonzero_digits by assumption. unfold spec_digit_product.
    rewrite list_product_factor
      by (apply nonzero_digits; [apply spec_digits_range; lia | exact Hnz]).
    destruct (exponents_le_length (spec_digits n)) as ([H2 _] & [H3 _] & [H5 _] & [H7 _]).
    pose proof (pow_wrap_le 2 _ ltac:(lia) H2) as P2.
    pose proof (pow_wrap_le 3 _ ltac:(lia) H3) as P3.
    pose proof (pow_wrap_le 5 _ ltac:(lia) H5) as P5.
    pose proof (pow_wrap_le 7 _ ltac:(lia) H7) as P7.
    split; [repeat apply Z.mul_nonneg_nonneg; lia|].
    repeat apply Z.mul_le_mono_nonneg; try lia;
      repeat apply Z.mul_nonneg_nonneg; lia.
Qed.

(** Every iteration of [mpz_persistence] makes [in] smaller. *)
Lemma mul_digits_decreases v : 10 < v -> 0 <= mul_digits v < v.
Proof.
  intros Hv. pose proof (mul_digits_le_product v ltac:(lia)).
  pose proof (spec_digit_product_lt v ltac:(lia)). lia.
Qed.

Lemma pers_size_decr s :
  pers_cond s = true -> 0 <= ps_in (pers_body s) < ps_in s.
Proof.
  unfold pers_cond. intros H. apply Z.ltb_lt in H. simpl.
  apply mul_digits_decreases, H.
Qed.

Lemma spec_size_decr (s : Z * Z) :
  spec_cond s = true -> 0 <= fst (spec_body s) < fst s.
Proof.
  unfold spec_cond. intros H. apply Z.leb_le in H. simpl.
  apply spec_digit_product_lt, H.
Qed.

(** * The loop of [mpz_persistence] *)

Lemma first_below_unique f limit n k1 k2 :
  first_below f limit n k1 -> first_below f limit n k2 -> k1 = k2.
Proof.
  intros [B1 L1] [B2 L2].
  destruct (Nat.lt_trichotomy k1 k2) as [H|[H|H]]; [|exact H|].
  - specialize (L2 _ H). lia.
  - specialize (L1 _ H). lia.
Qed.

Lemma first_below_step f limit n k :
  limit <= n -> first_below f limit n k ->
  exists k', k = S k' /\ first_below f limit (f n) k'.
Proof.
  intros Hn [B L]. destruct k as [|k'].
  - simpl in B. lia.
  - exists k'. split; [reflexivity|]. split.
    + rewrite <- Nat.iter_succ_r. exact B.
    + intros m Hm. rewrite <- Nat.iter_succ_r. apply L. lia.
Qed.

Lemma pers_iter (k : nat) inp c :
  wrap c = c ->
  Nat.iter k pers_body {| ps_in := inp; ps_count := c |} =
    {| ps_in := Nat.iter k mul_digits inp; ps_count := wrap (c + Z.of_nat k) |}.
Proof.
  intros Hc. induction k as [|k IH].
  - simpl. rewrite Z.add_0_r, Hc. reflexivity.
  - rewrite !Nat.iter_succ, IH. unfold pers_body. simpl ps_in. simpl ps_count.
    rewrite wrap_add_l. do 2 f_equal. lia.
Qed.

Lemma pers_while_counts inp c :
  wrap c = c ->
  exists k, first_below mul_digits 11 inp k /\
    pers_while {| ps_in := inp; ps_count := c |} =
      {| ps_in := Nat.iter k mul_digits inp; ps_count := wrap (c + Z.of_nat k) |}.
Proof.
  intros Hc. unfold pers_while.
  destruct (while_exits _ _ _ pers_size_decr {| ps_in := inp; ps_count := c |})
    as (k & E & C & L).
  exists k. rewrite pers_iter in E by exact Hc. split; [|exact E].
  split.
  - rewrite E in C. unfold pers_cond in C. simpl in C. apply Z.ltb_ge in C. lia.
  - intros m Hm. specialize (L m Hm). rewrite pers_iter in L by exact Hc.
    unfold pers_cond in L. simpl in L. apply Z.ltb_lt in L. lia.
Qed.

(** [mpz_persistence] counts the digit-product steps that bring its
    argument to a value of at most 10. *)
Lemma mpz_persistence_counts inp :
  exists k, first_below mul_digits 11 inp k /\ mpz_persistence inp = wrap (Z.of_nat k).
Proof.
  destruct (pers_while_counts inp 0 eq_refl) as (k & F & E).
  exists k. split; [exact F|]. unfold mpz_persistence, pers_init. rewrite E. reflexivity.
Qed.

Lemma mpz_persistence_stop inp : inp <= 10 -> mpz_persistence inp = 0.
Proof.
  intros H. unfold mpz_persistence, pers_while. rewrite while_stop; [reflexivity|].
  unfold pers_cond. simpl. apply Z.ltb_ge, H.
Qed.

Lemma mpz_persistence_step inp :
  10 < inp -> mpz_persistence inp = wrap (1 + mpz_persistence (mul_digits inp)).
Proof.
  intros H. destruct (mpz_persistence_counts inp) as (k & F & ->).
  destruct (first_below_step mul_digits 11 inp k ltac:(lia) F) as (k' & -> & F').
  destruct (mpz_persistence_counts (mul_digits inp)) as (k2 & F2 & ->).
  rewrite (first_below_unique _ _ _ _ _ F2 F'), wrap_add_r. f_equal. lia.
Qed.

(** * Persistence, as the specification words it *)

Lemma spec_iter (k : nat) n c :
  Nat.iter k spec_body (n, c) = (Nat.iter k spec_digit_product n, c + Z.of_nat k).
Proof.
  induction k as [|k IH].
  - simpl. f_equal. lia.
  - rewrite !Nat.iter_succ, IH. unfold spec_body. simpl. f_equal. lia.
Qed.

Lemma spec_persistence_counts n :
  exists k, first_below spec_digit_product 10 n k /\ spec_persistence n = Z.of_nat k.
Proof.
  unfold spec_persistence, spec_while.
  destruct (while_exits _ _ _ spec_size_decr (n, 0)) as (k & E & C & L).
  exists k. rewrite spec_iter in E. split; [|rewrite E; reflexivity]. split.
  - rewrite E in C. unfold spec_cond in C. simpl in C. apply Z.leb_gt in C. exact C.
  - intros m Hm. specialize (L m Hm). rewrite spec_iter in L.
    unfold spec_cond in L. simpl in L. apply Z.leb_le in L. exact L.
Qed.

Lemma spec_persistence_step n :
  10 <= n -> spec_persistence n = 1 + spec_persistence (spec_digit_product n).
Proof.
  intros H. destruct (spec_persistence_counts n) as (k & F & ->).
  destruct (first_below_step _ _ _ _ H F) as (k' & -> & F').
  destruct (spec_persistence_counts (spec_digit_product n)) as (k2 & F2 & ->).
  rewrite (first_below_unique _ _ _ _ _ F2 F'). lia.
Qed.

Lemma spec_persistence_small n : n < 10 -> spec_persistence n = 0.
Proof.
  intros H. unfold spec_persistence, spec_while. rewrite while_stop; [reflexivity|].
  unfold spec_cond. simpl. apply Z.leb_gt, H.
Qed.

(** * Numbers written with one digit *)

Lemma repunit_exact k : 0 <= k -> 9 * ((10 ^ k - 1) / 9) = 10 ^ k - 1.
Proof.
  intros Hk. pattern k. apply natlike_ind; [reflexivity| |exact Hk].
  clear k Hk. intros k Hk IH. rewrite Z.pow_succ_r by exact Hk.
  replace (10 * 10 ^ k - 1) with ((10 * ((10 ^ k - 1) / 9) + 1) * 9) by lia.
  rewrite Z.div_mul by lia. lia.
Qed.

Lemma rep_digit_succ d k :
  0 <= k -> rep_digit d (Z.succ k) = 10 * rep_digit d k + d.
Proof.
  intros Hk. unfold rep_digit.
  pose proof (repunit_exact k Hk) as H1.
  pose proof (repunit_exact (Z.succ k) ltac:(lia)) as H2.
  rewrite Z.pow_succ_r in H2 by exact Hk.
  set (a := (10 ^ k - 1) / 9) in *.
  rewrite Z.pow_succ_r by exact Hk.
  set (b := (10 * 10 ^ k - 1) / 9) in *.
  assert (b = 10 * a + 1) as -> by lia. ring.
Qed.

Lemma rep_digit_one d : rep_digit d 1 = d.
Proof. unfold rep_digit. change ((10 ^ 1 - 1) / 9) with 1. ring. Qed.

Lemma rep_digit_pos d k : 1 <= d -> 1 <= k -> 1 <= rep_digit d k.
Proof.
  intros Hd Hk.
  assert (exists j, 0 <= j /\ k = Z.succ j) as (j & Hj & ->) by (exists (k - 1); lia).
  clear Hk. pattern j. apply natlike_ind; [|  |exact Hj].
  - change (Z.succ 0) with 1. rewrite rep_digit_one. exact Hd.
  - intros x Hx IH. rewrite rep_digit_succ by lia. lia.
Qed.

Lemma spec_digits_rep_digit d k :
  1 <= d <= 9 -> 1 <= k ->
  spec_digits (rep_digit d k) = List.repeat d (Z.to_nat k).
Proof.
  intros Hd Hk.
  assert (exists j, 0 <= j /\ k = Z.succ j) as (j & Hj & ->) by (exists (k - 1); lia).
  clear Hk. pattern j. apply natlike_ind; [|  |exact Hj].
  - change (Z.succ 0) with 1. rewrite rep_digit_one.
    rewrite spec_digits_small by lia. reflexivity.
  - intros x Hx IH. rewrite (rep_digit_succ d (Z.succ x)) by lia.
    pose proof (rep_digit_pos d (Z.succ x) ltac:(lia) ltac:(lia)) as Hp.
    set (r := rep_digit d (Z.succ x)) in *.
    rewrite spec_digits_step by lia.
    replace ((10 * r + d) mod 10) with d
      by (apply (Z.mod_unique_pos _ _ r); lia).
    replace ((10 * r + d) / 10) with r
      by (apply (Z.div_unique_pos _ _ r d); lia).
    rewrite IH, (Z2Nat.inj_succ (Z.succ x)) by lia. reflexivity.
Qed.

Lemma occ_repeat d (k : nat) d' :
  occ (List.repeat d k) d' = if d =? d' then Z.of_nat k else 0.
Proof.
  unfold occ. destruct (Z.eqb_spec d d') as [->|Hne].
  - rewrite count_occ_repeat_eq by reflexivity. reflexivity.
  - rewrite count_occ_repeat_neq by congruence. reflexivity.
Qed.

(** On a numeral of [k] eights the exponent of 2 is [3 k], and only its
    residue modulo [2^32] reaches the power. *)
Lemma mul_digits_eights k :
  1 <= k ->
  mul_digits (rep_digit 8 k) = 2 ^ wrap (3 * k) /\
  prime_form (rep_digit 8 k) = 2 ^ (3 * k) /\
  spec_digit_product (rep_digit 8 k) = 2 ^ (3 * k) /\
  ~ In 0 (spec_digits (rep_digit 8 k)).
Proof.
  intros Hk.
  pose proof (spec_digits_rep_digit 8 k ltac:(lia) Hk) as Hd.
  pose proof (rep_digit_pos 8 k ltac:(lia) Hk) as Hp.
  assert (~ In 0 (spec_digits (rep_digit 8 k))) as Hnz.
  { rewrite Hd. intros Hin. apply repeat_spec in Hin. discriminate. }
  assert (exp2 (spec_digits (rep_digit 8 k)) = 3 * k) as E2.
  { unfold exp2. rewrite Hd, !occ_repeat. simpl. rewrite Z2Nat.id by lia. ring. }
  assert (exp3 (spec_digits (rep_digit 8 k)) = 0) as E3.
  { unfold exp3. rewrite Hd, !occ_repeat. reflexivity. }
  assert (occ (spec_digits (rep_digit 8 k)) 5 = 0) as E5.
  { rewrite Hd, occ_repeat. reflexivity. }
  assert (occ (spec_digits (rep_digit 8 k)) 7 = 0) as E7.
  { rewrite Hd, occ_repeat. reflexivity. }
  assert (prime_form (rep_digit 8 k) = 2 ^ (3 * k)) as Hpf.
  { unfold prime_form, hist2, hist3, digit_count.
    fold (occ (spec_digits (rep_digit 8 k)) 2). fold (occ (spec_digits (rep_digit 8 k)) 3).
    fold (occ (spec_digits (rep_digit 8 k)) 4). fold (occ (spec_digits (rep_digit 8 k)) 5).
    fold (occ (spec_digits (rep_digit 8 k)) 6). fold (occ (spec_digits (rep_digit 8 k)) 7).
    fold (occ (spec_digits (rep_digit 8 k)) 8). fold (occ (spec_digits (rep_digit 8 k)) 9).
    fold (exp2 (spec_digits (rep_digit 8 k))). fold (exp3 (spec_digits (rep_digit 8 k))).
    rewrite E2, E3, E5, E7. rewrite !Z.pow_0_r. ring. }
  repeat split.
  - rewrite mul_digits_nonzero_digits by assumption.
    rewrite E2, E3, E5, E7. change (wrap 0) with 0. rewrite !Z.pow_0_r. ring.
  - exact Hpf.
  - rewrite <- Hpf. unfold spec_digit_product.
    rewrite list_product_factor
      by (apply nonzero_digits; [apply spec_digits_range; lia | exact Hnz]).
    rewrite E2, E3, E5, E7, !Z.pow_0_r. rewrite Hpf. ring.
  - exact Hnz.
Qed.

Lemma mul_digits_eights_differ k :
  1 <= k -> 2 ^ UINT_BITS <= 3 * k ->
  mul_digits (rep_digit 8 k) <> prime_form (rep_digit 8 k).
Proof.
  intros Hk Hbig. destruct (mul_digits_eights k Hk) as (Hm & Hp & _ & _).
  rewrite Hm, Hp. apply Z.lt_neq.
  pose proof (wrap_range (3 * k)) as Hw.
  apply Z.pow_lt_mono_r; lia.
Qed.

Lemma mul_digits_eights_not_product k :
  1 <= k -> 2 ^ UINT_BITS <= 3 * k ->
  mul_digits (rep_digit 8 k) <> spec_digit_product (rep_digit 8 k).
Proof.
  intros Hk Hbig. destruct (mul_digits_eights k Hk) as (_ & Hp & Hs & _).
  rewrite Hs, <- Hp. apply mul_digits_eights_differ; assumption.
Qed.

(** * One digit-product step *)

Lemma hist_exponents n :
  hist2 n = exp2 (spec_digits n) /\ hist3 n = exp3 (spec_digits n).
Proof. split; reflexivity. Qed.

Lemma spec_digit_product_prime_form n :
  0 <= n -> ~ In 0 (spec_digits n) -> spec_digit_product n = prime_form n.
Proof.
  intros Hn Hnz. unfold spec_digit_product.
  rewrite list_product_factor
    by (apply nonzero_digits; [apply spec_digits_range; exact Hn | exact Hnz]).
  reflexivity.
Qed.

Lemma mul_digits_prime_form n :
  1 <= n -> ~ In 0 (spec_digits n) -> fits_unsigned n -> mul_digits n = prime_form n.
Proof.
  intros Hn Hnz (F2 & F3 & F5 & F7).
  rewrite mul_digits_nonzero_digits by assumption.
  destruct (exponents_le_length (spec_digits n)) as ([H2 _] & [H3 _] & [H5 _] & [H7 _]).
  destruct (hist_exponents n) as [E2 E3]. rewrite E2 in F2. rewrite E3 in F3.
  unfold digit_count in F5, F7.
  fold (occ (spec_digits n) 5) in F5. fold (occ (spec_digits n) 7) in F7.
  rewrite !wrap_small by (split; assumption). reflexivity.
Qed.

(** Numerals of fewer than [2^32 / 3] digits fit. *)
Lemma short_fits_unsigned n :
  3 * Z.of_nat (length (spec_digits n)) < 2 ^ UINT_BITS -> fits_unsigned n.
Proof.
  intros H.
  destruct (exponents_le_length (spec_digits n)) as ([_ H2] & [_ H3] & [_ H5] & [_ H7]).
  destruct (hist_exponents n) as [E2 E3]. unfold fits_unsigned, digit_count.
  fold (occ (spec_digits n) 5) (occ (spec_digits n) 7).
  rewrite E2, E3. repeat split; eapply Z.le_lt_trans; eassumption.
Qed.




(** C8, as amended: for every [n >= 1] none of whose decimal digits is zero,
    the product of the digits is [2^h2' * 3^h3' * 5^h5 * 7^h7]; when the four
    exponents fit the [unsigned] histogram entries, [mul_digits n] computes
    exactly this factorization. *)
Theorem mul_digits_recomposition (n : Z) (Hn : 1 <= n)
    (Hnz : ~ In 0 (spec_digits n)) :
  spec_digit_product n = prime_form n /\
  (fits_unsigned n -> mul_digits n = prime_form n).
Proof.
  split.
  - apply spec_digit_product_prime_form; [lia | exact Hnz].
  - apply mul_digits_prime_form; assumption.
Qed.

Lemma mul_digits_recomposition_witness :
  1 <= 68889 /\ ~ In 0 (spec_digits 68889) /\ fits_unsigned 68889 /\
  spec_digit_product 68889 = prime_form 68889 /\ mul_digits 68889 = prime_form 68889.
Proof.
  assert (1 <= 68889) as H1 by lia.
  assert (~ In 0 (spec_digits 68889)) as H2
    by (vm_compute; intros [H|[H|[H|[H|[H|[]]]]]]; discriminate H).
  assert (fits_unsigned 68889) as H3 by (vm_compute; repeat split; reflexivity).
  split; [exact H1|]. split; [exact H2|]. split; [exact H3|].
  destruct (mul_digits_recomposition 68889 H1 H2) as [P M].
  split; [exact P | exact (M H3)].
Defined.

(** C8, as stated, fails on the numeral of 1431655766 eights: three times
    the count of eights is [2^32 + 2], the histogram entry keeps 2, and
    [mul_digits] returns [2^2] where the product of the digits is
    [2^4294967298]. *)
Lemma mul_digits_histogram_wraps :
  let n := rep_digit 8 1431655766 in
  1 <= n /\ ~ In 0 (spec_digits n) /\
  spec_digit_product n = prime_form n /\ mul_digits n = 4 /\ mul_digits n <> prime_form n.
Proof.
  cbv zeta.
  assert (1 <= 1431655766) as Hk by (intros H; discriminate H).
  assert (2 ^ UINT_BITS <= 3 * 1431655766) as Hbig by (intros H; discriminate H).
  pose proof (mul_digits_eights_differ _ Hk Hbig) as Hne.
  destruct (mul_digits_eights _ Hk) as (Hm & Hp & Hs & Hnz).
  split; [apply rep_digit_pos; [intros H; discriminate H | exact Hk]|].
  split; [exact Hnz|].
  split; [exact (eq_trans Hs (eq_sym Hp))|].
  split; [exact Hm | exact Hne].
Qed.

(** * The persistence evaluator *)

(** C6: for every natural number [n] in [0, 9], [mpz_persistence n]
    returns 0. *)
Theorem mpz_persistence_single_digit (n : Z) (Hn : 0 <= n <= 9) :
  mpz_persistence n = 0.
Proof. apply mpz_persistence_stop. lia. Qed.

Lemma mpz_persistence_single_digit_witness : 0 <= 7 <= 9 /\ mpz_persistence 7 = 0.
Proof.
  assert (0 <= 7 <= 9) as H by lia.
  split; [exact H | exact (mpz_persistence_single_digit 7 H)].
Defined.

(** C1 at [n = 10]: the guard [mpz_cmp_ui(in, 10) > 0] fails at once and
    [mpz_persistence 10] is 0, although [10] is not below 10: one
    digit-product step is needed ([10 -> 0]) and the recurrence asks for
    [1 + mpz_persistence (mul_digits 10) = 1].  The same guard stops every
    iteration that reaches 10 one step early, as on [25 -> 10 -> 0]. *)
Theorem mpz_persistence_of_ten :
  mpz_persistence 10 = 0 /\
  mul_digits 10 = 0 /\ 1 + mpz_persistence (mul_digits 10) = 1 /\
  spec_persistence 10 = 1 /\
  mpz_persistence 25 = 1 /\ spec_persistence 25 = 2.
Proof. vm_compute. repeat split; reflexivity. Qed.

(** Above 10 the recurrence holds, up to the width of the counter. *)
Lemma mpz_persistence_recurrence n :
  10 < n -> mpz_persistence n = wrap (1 + mpz_persistence (mul_digits n)).
Proof. apply mpz_persistence_step. Qed.

(** C9: [mpz_persistence] terminates on every non-negative input.  Whenever
    the loop body runs ([10 < v]) [mul_digits v] is strictly less than [v];
    the iterated value strictly decreases until the guard fails, after a
    finite number [k] of iterations, and any fuel from [loop_fuel] on lets
    the loop reach that exit.  The digit loop inside [mul_digits] reaches its
    exit in the same way. *)
Theorem mpz_persistence_terminates (v : Z) (Hv : 0 <= v) :
  (10 < v -> 0 <= mul_digits v < v) /\
  (exists (k : nat) (r : pers_state),
    exits_after pers_cond pers_body (pers_init v) k r /\
    (forall m, (m < k)%nat ->
       0 <= ps_in (Nat.iter (S m) pers_body (pers_init v))
         < ps_in (Nat.iter m pers_body (pers_init v))) /\
    (forall fuel, (loop_fuel ps_in (pers_init v) <= fuel)%nat ->
       iter_pow pers_cond pers_body fuel (pers_init v) = inl r) /\
    ps_in r <= 10 /\ mpz_persistence v = ps_count r) /\
  (forall (s : digit_state) fuel, (loop_fuel ds_in s <= fuel)%nat ->
     iter_pow digit_cond digit_body fuel s = inl (digit_while s)).
Proof.
  split; [apply mul_digits_decreases|]. split.
  - destruct (while_exits _ _ _ pers_size_decr (pers_init v)) as (k & E).
    exists k, (pers_while (pers_init v)). split; [exact E|].
    destruct E as (_ & C & L). repeat split.
    + rewrite Nat.iter_succ. apply pers_size_decr, L, H.
    + rewrite Nat.iter_succ. apply pers_size_decr, L, H.
    + intros fuel Hf. apply (while_fuel _ _ _ pers_size_decr), Hf.
    + unfold pers_cond in C. apply Z.ltb_ge in C. exact C.
  - intros s fuel Hf. apply (while_fuel _ _ _ digit_size_decr), Hf.
Qed.

Lemma mpz_persistence_terminates_witness :
  0 <= 277777788888899 /\
  exists (k : nat) (r : pers_state),
    exits_after pers_cond pers_body (pers_init 277777788888899) k r /\
    ps_in r <= 10 /\ mpz_persistence 277777788888899 = ps_count r.
Proof.
  assert (0 <= 277777788888899) as H by lia.
  split; [exact H|].
  destruct (mpz_persistence_terminates 277777788888899 H)
    as (_ & (k & r & E & _ & _ & B & P) & _).
  exists k, r. split; [exact E|]. split; [exact B | exact P].
Defined.

(** * Runs and their logs *)

Lemma chained_app m t1 : forall t2 m',
  chained m (t1 ++ t2) m' <-> exists m1, chained m t1 m1 /\ chained m1 t2 m'.
Proof.
  revert m. induction t1 as [|e t1 IH]; intros m t2 m'; simpl.
  - split.
    + intros H. exists m. split; [reflexivity | exact H].
    + intros (m1 & -> & H). exact H.
  - rewrite IH. split.
    + intros (Hm & m1 & H1 & H2). exists m1. repeat split; assumption.
    + intros (m1 & (Hm & H1) & H2). split; [exact Hm|]. exists m1. split; assumption.
Qed.

Lemma run_log_refl st : run_log st st [].
Proof.
  unfold run_log. simpl. rewrite !app_nil_r. repeat split.
Qed.

Lemma run_log_trans a b c t1 t2 :
  run_log a b t1 -> run_log b c t2 -> run_log a c (t1 ++ t2).
Proof.
  intros (T1 & O1 & C1) (T2 & O2 & C2). unfold run_log.
  rewrite T2, T1, O2, O1, List.filter_app, map_app, !app_assoc.
  repeat split. apply chained_app. exists (max b). split; assumption.
Qed.

Lemma logged_refl st : logged st st [].
Proof. exists []. split; [apply run_log_refl|]. split; [reflexivity | constructor]. Qed.

Lemma logged_trans a b c cs1 cs2 :
  logged a b cs1 -> logged b c cs2 -> logged a c (cs1 ++ cs2).
Proof.
  intros (t1 & R1 & M1 & P1) (t2 & R2 & M2 & P2). exists (t1 ++ t2).
  split; [eapply run_log_trans; eassumption|]. split.
  - rewrite map_app, M1, M2. reflexivity.
  - apply Forall_app. split; assumption.
Qed.

(** One comparison (lines 176-194 and 213-231). *)
Lemma check_record_logged c runs st :
  str (c_prefix c) +:+ runs = c_numeral c ->
  logged st (check_record c (wrap (1 + mpz_persistence (c_num c))) runs st) [c].
Proof.
  intros Hruns. set (p := wrap (1 + mpz_persistence (c_num c))).
  exists [ {| ev_cand := c; ev_persistence := p; ev_max := max st |} ].
  split; [|split; [reflexivity | constructor; [reflexivity | constructor]]].
  unfold run_log, check_record. cbv zeta. simpl List.filter. unfold ev_printed at 1.
  simpl ev_max. simpl ev_persistence. simpl chained.
  unfold ev_max_after, ev_printed. simpl ev_max. simpl ev_persistence.
  destruct (max st <? p); simpl.
  - unfold ev_line. simpl. rewrite Hruns. repeat split.
  - rewrite app_nil_r. repeat split.
Qed.

Lemma fold_left_logged {I : Type} (body : I -> state -> state) (f : I -> list candidate)
    (l : list I) : forall st,
  (forall i s, In i l -> logged s (body i s) (f i)) ->
  logged st (fold_left (fun s i => body i s) l st) (flat_map f l).
Proof.
  induction l as [|i l IH]; intros st H; simpl.
  - apply logged_refl.
  - eapply logged_trans.
    + apply H. left. reflexivity.
    + apply IH. intros j s Hj. apply H. right. exact Hj.
Qed.

Lemma for_range_logged lo hi body (f : nat -> list candidate) st :
  (forall i s, (lo <= i < hi)%nat -> logged s (body i s) (f i)) ->
  logged st (for_range lo hi body st) (flat_map f (seq lo (hi - lo))).
Proof.
  intros H. unfold for_range. apply fold_left_logged.
  intros i s Hi. apply H. apply in_seq in Hi. lia.
Qed.

Lemma flat_map_singleton {A B : Type} (g : A -> B) (l : list A) :
  flat_map (fun x => [g x]) l = map g l.
Proof. induction l as [|x l IH]; simpl; [reflexivity | rewrite IH; reflexivity]. Qed.

Lemma for_range_logged_flat n body (f : nat -> list candidate) st :
  (forall i s, (i < n)%nat -> logged s (body i s) (f i)) ->
  logged st (for_range 0 n body st) (flat_map f (seq 0 n)).
Proof.
  intros H. rewrite <- (Nat.sub_0_r n) at 2. apply for_range_logged.
  intros i s Hi. apply H. lia.
Qed.

Lemma for_range_logged_map n body (g : nat -> candidate) st :
  (forall i s, (i < n)%nat -> logged s (body i s) [g i]) ->
  logged st (for_range 0 n body st) (map g (seq 0 n)).
Proof.
  intros H. rewrite <- flat_map_singleton. apply for_range_logged_flat. exact H.
Qed.

Lemma family_A_logged ndigits pfx st :
  logged st (family_A ndigits pfx st) (spec_family_A (ndigits - digits pfx) pfx).
Proof.
  unfold family_A, spec_family_A. cbv zeta.
  apply for_range_logged_flat. intros q s _.
  apply for_range_logged_map. intros d s' _.
  apply (check_record_logged
    {| c_prefix := pfx; c_num5s := (ndigits - digits pfx - q)%nat;
       c_num7s := (q - d)%nat; c_num8s := 0; c_num9s := d;
       c_num := 5 ^ Z.of_nat (ndigits - digits pfx - q) * 7 ^ Z.of_nat (q - d)
                * 9 ^ Z.of_nat d * prod pfx |}).
  reflexivity.
Qed.

Lemma family_B_logged ndigits pfx st :
  logged st (family_B ndigits pfx st) (spec_family_B (ndigits - digits pfx) pfx).
Proof.
  unfold family_B, spec_family_B. cbv zeta.
  apply for_range_logged_flat. intros m s _.
  apply for_range_logged_map. intros d s' _.
  apply (check_record_logged
    {| c_prefix := pfx; c_num5s := 0; c_num7s := (ndigits - digits pfx - m)%nat;
       c_num8s := (m - d)%nat; c_num9s := d;
       c_num := 7 ^ Z.of_nat (ndigits - digits pfx - m) * 8 ^ Z.of_nat (m - d)
                * 9 ^ Z.of_nat d * prod pfx |}).
  reflexivity.
Qed.

(** [prefix->prod & 1] tests the parity. *)
Lemma land_1_odd p : negb (Z.land p 1 =? 0) = Z.odd p.
Proof.
  change 1 with (Z.ones 1) at 1. rewrite Z.land_ones by lia.
  change (2 ^ 1) with 2. rewrite <- Z.bit0_mod, Z.bit0_odd.
  destruct (Z.odd p); reflexivity.
Qed.

Lemma search_prefix_logged ndigits pfx st :
  logged st (search_prefix ndigits pfx st) (spec_prefix_cands ndigits pfx).
Proof.
  unfold search_prefix, spec_prefix_cands.
  destruct (ndigits <? digits pfx)%nat; [apply logged_refl|].
  cbv zeta. rewrite land_1_odd. eapply logged_trans; [|apply family_B_logged].
  destruct (Z.odd (prod pfx)); [apply family_A_logged | apply logged_refl].
Qed.

Lemma search_digits_logged ndigits st :
  logged st (search_digits ndigits st) (spec_digits_cands ndigits).
Proof.
  unfold search_digits.
  assert (spec_digits_cands ndigits =
          flat_map (fun p => match prefixes !! p with
                             | Some pfx => spec_prefix_cands ndigits pfx
                             | None => []
                             end) (seq 0 (NUM_PREFIXES - 0))) as ->.
  { unfold spec_digits_cands. simpl. reflexivity. }
  apply for_range_logged. intros p s _.
  destruct (prefixes !! p); [apply search_prefix_logged | apply logged_refl].
Qed.

(** The whole run makes the comparisons of the specified enumeration, in
    its order. *)
Lemma main_logged max_digits :
  logged init_state (main_upto max_digits) (spec_enumeration max_digits).
Proof.
  unfold main_upto, spec_enumeration.
  replace (max_digits - 1)%nat with (S max_digits - 2)%nat by lia.
  apply for_range_logged. intros d s _. apply search_digits_logged.
Qed.

(** What a chained log says about the record. *)
Lemma chained_records t : forall m m',
  chained m t m' ->
  StronglySorted Z.lt (map ev_persistence (List.filter ev_printed t)) /\
  Forall (fun e => m < ev_persistence e <= m') (List.filter ev_printed t) /\
  m <= m' /\
  Forall (fun e => m <= ev_max e <= ev_max_after e /\ ev_max_after e <= m') t /\
  StronglySorted Z.le (map ev_max t).
Proof.
  induction t as [|e t IH]; intros m m' H; simpl in H.
  - subst m'. simpl. repeat split; try constructor; lia.
  - destruct H as [Hm H]. destruct (IH _ _ H) as (S1 & F1 & L1 & F2 & S2).
    assert (ev_max e <= ev_max_after e) as Hup.
    { unfold ev_max_after, ev_printed.
      destruct (Z.ltb_spec (ev_max e) (ev_persistence e)); lia. }
    assert (Forall (fun e' => m <= ev_max e' <= ev_max_after e' /\ ev_max_after e' <= m')
              (e :: t)) as F2'.
    { constructor; [lia|]. eapply Forall_impl; [exact F2|]. simpl. intros; lia. }
    assert (StronglySorted Z.le (map ev_max (e :: t))) as S2'.
    { simpl. constructor; [exact S2|]. apply Forall_map.
      eapply Forall_impl; [exact F2|]. simpl. intros; lia. }
    simpl List.filter. unfold ev_max_after in *.
    destruct (ev_printed e) eqn:Hp.
    + unfold ev_printed in Hp. apply Z.ltb_lt in Hp. simpl map.
      repeat split; try assumption; try lia.
      * constructor; [exact S1|]. apply Forall_map.
        eapply Forall_impl; [exact F1|]. simpl. intros; lia.
      * constructor; [lia|]. eapply Forall_impl; [exact F1|]. simpl. intros; lia.
    + unfold ev_printed in Hp. apply Z.ltb_ge in Hp.
      repeat split; try assumption; try lia.
      eapply Forall_impl; [exact F1|]. simpl. intros; lia.
Qed.

(** The comparison itself: a line is written exactly when [persistence]
    exceeds [max], and [max] then takes its value. *)
Lemma check_record_cases c persistence runs st :
  let st' := check_record c persistence runs st in
  (max st < persistence ->
     max st' = persistence /\
     stdout st' = stdout st ++ [ {| line_persistence := persistence;
                                    line_numeral := str (c_prefix c) +:+ runs |} ]) /\
  (persistence <= max st -> max st' = max st /\ stdout st' = stdout st).
Proof.
  cbv zeta. unfold check_record.
  destruct (Z.ltb_spec (max st) persistence); simpl; split; intros; try lia; split; reflexivity.
Qed.

Lemma check_record_ok c persistence runs st :
  record_ok st -> record_ok (check_record c persistence runs st).
Proof.
  intros (S1 & F1 & M1). unfold record_ok, check_record.
  destruct (Z.ltb_spec (max st) persistence) as [Hlt|Hge]; simpl.
  - rewrite map_app. simpl. repeat split.
    + apply StronglySorted_app_2; [|exact S1|repeat constructor].
      intros x1 x2 H1 H2. apply list_elem_of_In in H1, H2.
      destruct H2 as [<-|[]]. apply in_map_iff in H1 as (l & <- & Hl).
      rewrite List.Forall_forall in F1. specialize (F1 l Hl). lia.
    + apply Forall_app. split.
      * eapply Forall_impl; [exact F1|]. simpl. intros; lia.
      * constructor; [simpl; lia | constructor].
    + lia.
  - repeat split; assumption.
Qed.

(** The order of the comparisons does not matter for the record: whatever
    sequence of candidates goes through the comparison, as in the build with
    [USE_OPENMP], where the comparison and the update are made under the
    mutex. *)
Lemma records_in_any_order (steps : list (candidate * Z * string)) :
  record_ok
    (fold_left (fun st x => check_record (fst (fst x)) (snd (fst x)) (snd x) st)
       steps init_state).
Proof.
  assert (record_ok init_state) as H0
    by (unfold record_ok; simpl; repeat split; [constructor | constructor | lia]).
  revert H0. generalize init_state. induction steps as [|x steps IH]; intros st H.
  - exact H.
  - simpl. apply IH, check_record_ok, H.
Qed.

Lemma spec_records_cons m c cs :
  spec_records m (c :: cs) =
  (if m <? wrap (1 + mpz_persistence (c_num c)) then
     ({| line_persistence := wrap (1 + mpz_persistence (c_num c));
         line_numeral := c_numeral c |}
        :: fst (spec_records (wrap (1 + mpz_persistence (c_num c))) cs),
      snd (spec_records (wrap (1 + mpz_persistence (c_num c))) cs))
   else spec_records m cs).
Proof. reflexivity. Qed.

(** A chained log of computed persistences is the run the specification
    words: same lines, same final [max]. *)
Lemma chained_spec_records t : forall m m',
  chained m t m' ->
  Forall (fun e => ev_persistence e = wrap (1 + mpz_persistence (c_num (ev_cand e)))) t ->
  spec_records m (map ev_cand t) = (map ev_line (List.filter ev_printed t), m').
Proof.
  induction t as [|e t IH]; intros m m' C P.
  - simpl in C. subst m'. reflexivity.
  - destruct C as [Hm C]. inversion P as [|e0 t0 Pe Pt]; subst e0 t0.
    specialize (IH _ _ C Pt).
    change (map ev_cand (e :: t)) with (ev_cand e :: map ev_cand t).
    rewrite spec_records_cons, <- Pe, <- Hm.
    change (List.filter ev_printed (e :: t))
      with (if ev_printed e then e :: List.filter ev_printed t
            else List.filter ev_printed t).
    unfold ev_max_after in IH. unfold ev_printed in IH |- *.
    destruct (ev_max e <? ev_persistence e); rewrite IH; reflexivity.
Qed.


(** * The candidates *)

Lemma in_spec_family_A R pfx c :
  In c (spec_family_A R pfx) <->
  exists q d, (q < R /\ d <= q)%nat /\
    c = {| c_prefix := pfx; c_num5s := R - q; c_num7s := q - d; c_num8s := 0;
           c_num9s := d;
           c_num := 5 ^ Z.of_nat (R - q) * 7 ^ Z.of_nat (q - d) * 9 ^ Z.of_nat d * prod pfx |}.
Proof.
  unfold spec_family_A. rewrite in_flat_map. split.
  - intros (q & Hq & Hc). apply in_map_iff in Hc as (d & <- & Hd).
    apply in_seq in Hq. apply in_seq in Hd. exists q, d. split; [lia | reflexivity].
  - intros (q & d & [Hq Hd] & ->). exists q. split; [apply in_seq; lia|].
    apply in_map_iff. exists d. split; [reflexivity | apply in_seq; lia].
Qed.

Lemma in_spec_family_B R pfx c :
  In c (spec_family_B R pfx) <->
  exists m d, (m <= R /\ d <= m)%nat /\
    c = {| c_prefix := pfx; c_num5s := 0; c_num7s := R - m; c_num8s := m - d;
           c_num9s := d;
           c_num := 7 ^ Z.of_nat (R - m) * 8 ^ Z.of_nat (m - d) * 9 ^ Z.of_nat d * prod pfx |}.
Proof.
  unfold spec_family_B. rewrite in_flat_map. split.
  - intros (m & Hm & Hc). apply in_map_iff in Hc as (d & <- & Hd).
    apply in_seq in Hm. apply in_seq in Hd. exists m, d. split; [lia | reflexivity].
  - intros (m & d & [Hm Hd] & ->). exists m. split; [apply in_seq; lia|].
    apply in_map_iff. exists d. split; [reflexivity | apply in_seq; lia].
Qed.

Lemma family_A_values R pfx v :
  In v (map c_num (spec_family_A R pfx)) <->
  exists s b d, (1 <= s /\ s + b + d = R)%nat /\
    v = prod pfx * 5 ^ Z.of_nat s * 7 ^ Z.of_nat b * 9 ^ Z.of_nat d.
Proof.
  rewrite in_map_iff. split.
  - intros (c & <- & Hc). apply in_spec_family_A in Hc as (q & d & [Hq Hd] & ->).
    exists (R - q)%nat, (q - d)%nat, d. split; [lia | simpl; ring].
  - intros (s & b & d & [Hs Hsum] & ->).
    exists {| c_prefix := pfx; c_num5s := s; c_num7s := b; c_num8s := 0; c_num9s := d;
              c_num := 5 ^ Z.of_nat s * 7 ^ Z.of_nat b * 9 ^ Z.of_nat d * prod pfx |}.
    split; [simpl; ring|]. apply in_spec_family_A. exists (b + d)%nat, d.
    split; [lia|]. replace (R - (b + d))%nat with s by lia.
    replace (b + d - d)%nat with b by lia. reflexivity.
Qed.

Lemma family_B_values R pfx v :
  In v (map c_num (spec_family_B R pfx)) <->
  exists b c d, (b + c + d = R)%nat /\
    v = prod pfx * 7 ^ Z.of_nat b * 8 ^ Z.of_nat c * 9 ^ Z.of_nat d.
Proof.
  rewrite in_map_iff. split.
  - intros (x & <- & Hx). apply in_spec_family_B in Hx as (m & d & [Hm Hd] & ->).
    exists (R - m)%nat, (m - d)%nat, d. split; [lia | simpl; ring].
  - intros (b & c & d & Hsum & ->).
    exists {| c_prefix := pfx; c_num5s := 0; c_num7s := b; c_num8s := c; c_num9s := d;
              c_num := 7 ^ Z.of_nat b * 8 ^ Z.of_nat c * 9 ^ Z.of_nat d * prod pfx |}.
    split; [simpl; ring|]. apply in_spec_family_B. exists (c + d)%nat, d.
    split; [lia|]. replace (R - (c + d))%nat with b by lia.
    replace (c + d - d)%nat with c by lia. reflexivity.
Qed.



(** * The numerals *)

Lemma length_append s1 s2 :
  String.length (s1 +:+ s2) = (String.length s1 + String.length s2)%nat.
Proof. induction s1 as [|c s1 IH]; simpl; [reflexivity | rewrite IH; reflexivity]. Qed.

Lemma length_digit_run c n : String.length (digit_run c n) = n.
Proof. induction n as [|n IH]; simpl; [reflexivity | rewrite IH; reflexivity]. Qed.

Lemma length_c_numeral c :
  String.length (c_numeral c) =
    (String.length (str (c_prefix c)) + c_num5s c + c_num7s c + c_num8s c + c_num9s c)%nat.
Proof. unfold c_numeral. rewrite !length_append, !length_digit_run. lia. Qed.

Lemma prefixes_digits pfx : In pfx prefixes -> String.length (str pfx) = digits pfx.
Proof.
  intros H. repeat (destruct H as [<-|H]; [reflexivity|]). destruct H.
Qed.

(** The counters of every candidate of the digit count [D] add up to [D]. *)
Lemma spec_digits_cands_counters ndigits c :
  In c (spec_digits_cands ndigits) ->
  In (c_prefix c) prefixes /\
  ((c_num8s c = 0 /\ digits (c_prefix c) + c_num5s c + c_num7s c + c_num9s c = ndigits) \/
   (c_num5s c = 0 /\ digits (c_prefix c) + c_num7s c + c_num8s c + c_num9s c = ndigits))%nat.
Proof.
  unfold spec_digits_cands. rewrite in_flat_map. intros (pfx & Hpfx & Hc).
  unfold spec_prefix_cands in Hc.
  destruct (Nat.ltb_spec ndigits (digits pfx)) as [Hlt|Hge]; [destruct Hc|].
  apply in_app_iff in Hc as [Hc|Hc].
  - destruct (Z.odd (prod pfx)); [|destruct Hc].
    apply in_spec_family_A in Hc as (q & d & [Hq Hd] & ->). simpl.
    split; [exact Hpfx|]. left. lia.
  - apply in_spec_family_B in Hc as (m & d & [Hm Hd] & ->). simpl.
    split; [exact Hpfx|]. right. lia.
Qed.

(** C10: every record line printed while the outer loop is processing the
    digit count [D] shows a numeral of exactly [D] decimal digits: the
    comparisons [new] made for [D] have counters that add up to [D], in family
    A (no 8) [digits + num5s + num7s + num9s = D] and in family B (no 5)
    [digits + num7s + num8s + num9s = D], and the lines written are those of
    the comparisons that exceeded [max]. *)
Theorem record_numerals_have_D_digits (ndigits : nat) (st : state) :
  exists new,
    trace (search_digits ndigits st) = trace st ++ new /\
    stdout (search_digits ndigits st) =
      stdout st ++ map ev_line (List.filter ev_printed new) /\
    Forall (fun e =>
      let c := ev_cand e in
      ((c_num8s c = 0 /\ digits (c_prefix c) + c_num5s c + c_num7s c + c_num9s c = ndigits) \/
       (c_num5s c = 0 /\ digits (c_prefix c) + c_num7s c + c_num8s c + c_num9s c = ndigits))%nat /\
      String.length (line_numeral (ev_line e)) = ndigits) new /\
    Forall (fun l => String.length (line_numeral l) = ndigits)
      (map ev_line (List.filter ev_printed new)).
Proof.
  destruct (search_digits_logged ndigits st) as (new & (T & O & _) & M & _).
  exists new. split; [exact T|]. split; [exact O|].
  assert (Forall (fun e =>
      let c := ev_cand e in
      ((c_num8s c = 0 /\ digits (c_prefix c) + c_num5s c + c_num7s c + c_num9s c = ndigits) \/
       (c_num5s c = 0 /\ digits (c_prefix c) + c_num7s c + c_num8s c + c_num9s c = ndigits))%nat /\
      String.length (line_numeral (ev_line e)) = ndigits) new) as HF.
  { apply List.Forall_forall. intros e He. cbv zeta.
    assert (In (ev_cand e) (spec_digits_cands ndigits)) as Hc
      by (rewrite <- M; apply in_map, He).
    destruct (spec_digits_cands_counters _ _ Hc) as [Hp Hsum].
    split; [exact Hsum|]. simpl. rewrite length_c_numeral, (prefixes_digits _ Hp). lia. }
  split; [exact HF|].
  apply Forall_map. apply List.Forall_forall. intros e He.
  apply List.filter_In in He as [He _].
  rewrite List.Forall_forall in HF. apply (HF e He).
Qed.

(** * The prefix table *)

(** C7: the prefix table holds exactly the six entries ("26",2,12),
    ("2",1,2), ("3",1,3), ("4",1,4), ("6",1,6), (empty,0,1) in that order, and
    the product field of each entry is the product of the decimal digits of
    its text, the empty text having product 1. *)
Theorem prefixes_table :
  prefixes =
    [ {| str := "26"; digits := 2; prod := 12 |};
      {| str := "2"; digits := 1; prod := 2 |};
      {| str := "3"; digits := 1; prod := 3 |};
      {| str := "4"; digits := 1; prod := 4 |};
      {| str := "6"; digits := 1; prod := 6 |};
      {| str := EmptyString; digits := 0; prod := 1 |} ] /\
  length prefixes = NUM_PREFIXES /\
  Forall (fun pfx => prod pfx = text_digit_product (str pfx)) prefixes /\
  Forall (fun pfx => str pfx <> EmptyString ->
            prod pfx = spec_digit_product (decimal_value (str pfx))) prefixes /\
  Forall (fun pfx => digits pfx = String.length (str pfx)) prefixes.
Proof.
  split; [reflexivity|]. split; [reflexivity|].
  split; [|split]; repeat constructor; intros; try reflexivity.
  contradiction.
Qed.

(** * The first step, from the factors *)

Lemma text_digit_product_append s1 s2 :
  text_digit_product (s1 +:+ s2) = text_digit_product s1 * text_digit_product s2.
Proof.
  induction s1 as [|c s1 IH].
  - change (EmptyString +:+ s2)%string with s2.
    change (text_digit_product EmptyString) with 1. ring.
  - change (text_digit_product (String c s1 +:+ s2))
      with (digit_of_ascii c * text_digit_product (s1 +:+ s2)).
    rewrite IH. change (text_digit_product (String c s1))
      with (digit_of_ascii c * text_digit_product s1). ring.
Qed.

Lemma text_digit_product_run c n :
  text_digit_product (digit_run c n) = digit_of_ascii c ^ Z.of_nat n.
Proof.
  induction n as [|n IH]; [reflexivity|].
  rewrite Nat2Z.inj_succ, Z.pow_succ_r by lia. simpl. rewrite IH. reflexivity.
Qed.

Lemma nonzero_digits_text_append s1 s2 :
  nonzero_digits_text s1 -> nonzero_digits_text s2 -> nonzero_digits_text (s1 +:+ s2).
Proof.
  induction s1 as [|c s1 IH]; simpl; [intros _ H; exact H|].
  intros [Hc H1] H2. split; [exact Hc | apply IH; assumption].
Qed.

Lemma nonzero_digits_text_run c n :
  1 <= digit_of_ascii c <= 9 -> nonzero_digits_text (digit_run c n).
Proof. intros Hc. induction n as [|n IH]; simpl; [exact I | split; assumption]. Qed.

Lemma decimal_value_from_product s : forall acc,
  0 <= acc -> nonzero_digits_text s ->
  let v := decimal_value_from acc s in
  (if v =? 0 then 1 else spec_digit_product v) =
    (if acc =? 0 then 1 else spec_digit_product acc) * text_digit_product s /\
  acc * 10 ^ Z.of_nat (String.length s) <= v.
Proof.
  induction s as [|c s IH]; intros acc Hacc Hs; cbv zeta.
  - simpl. split; [ring | lia].
  - destruct Hs as [Hc Hs]. simpl decimal_value_from.
    destruct (IH (acc * 10 + digit_of_ascii c) ltac:(lia) Hs) as [IH1 IH2].
    split.
    + rewrite IH1. simpl text_digit_product.
      destruct (Z.eqb_spec (acc * 10 + digit_of_ascii c) 0) as [E|_]; [lia|].
      destruct (Z.eqb_spec acc 0) as [->|Hne].
      * simpl. rewrite spec_digit_product_small by lia. ring.
      * rewrite spec_digit_product_step by lia.
        replace ((acc * 10 + digit_of_ascii c) mod 10) with (digit_of_ascii c)
          by (apply (Z.mod_unique_pos _ _ acc); lia).
        replace ((acc * 10 + digit_of_ascii c) / 10) with acc
          by (apply (Z.div_unique_pos _ _ acc (digit_of_ascii c)); lia).
        ring.
    + change (String.length (String c s)) with (S (String.length s)).
      rewrite Nat2Z.inj_succ, Z.pow_succ_r by lia.
      assert (0 < 10 ^ Z.of_nat (String.length s)) by (apply Z.pow_pos_nonneg; lia).
      nia.
Qed.

(** The digit product of a numeral of non-zero digits is the product of its
    characters. *)
Lemma spec_digit_product_text s :
  s <> EmptyString -> nonzero_digits_text s ->
  spec_digit_product (decimal_value s) = text_digit_product s /\
  10 ^ Z.of_nat (String.length s - 1) <= decimal_value s.
Proof.
  intros Hne Hs. destruct s as [|c s]; [contradiction|]. destruct Hs as [Hc Hs].
  unfold decimal_value.
  change (decimal_value_from 0 (String c s))
    with (decimal_value_from (0 * 10 + digit_of_ascii c) s).
  rewrite Z.mul_0_l, Z.add_0_l.
  destruct (decimal_value_from_product s (digit_of_ascii c) ltac:(lia) Hs) as [H1 H2].
  cbv zeta in H1, H2.
  assert (0 < 10 ^ Z.of_nat (String.length s)) as Hpos by (apply Z.pow_pos_nonneg; lia).
  destruct (Z.eqb_spec (decimal_value_from (digit_of_ascii c) s) 0) as [E|_]; [nia|].
  destruct (Z.eqb_spec (digit_of_ascii c) 0) as [E|_]; [lia|].
  split.
  - rewrite H1, (spec_digit_product_small (digit_of_ascii c)) by lia. reflexivity.
  - change (String.length (String c s)) with (S (String.length s)).
    replace (S (String.length s) - 1)%nat with (String.length s) by lia. nia.
Qed.

(** The argument handed to [mpz_persistence] is the digit product of the
    candidate's numeral: the first step is taken on the factors. *)
Lemma candidate_first_step ndigits c :
  (2 <= ndigits)%nat -> In c (spec_digits_cands ndigits) ->
  c_num c = spec_digit_product (decimal_value (c_numeral c)) /\
  10 <= decimal_value (c_numeral c) /\
  spec_persistence (decimal_value (c_numeral c)) = 1 + spec_persistence (c_num c).
Proof.
  intros HD Hc. destruct (spec_digits_cands_counters _ _ Hc) as [Hp Hsum].
  assert (nonzero_digits_text (c_numeral c)) as Hnz.
  { unfold c_numeral.
    repeat apply nonzero_digits_text_append;
      try (apply nonzero_digits_text_run; vm_compute; split; discriminate).
    repeat (destruct Hp as [<-|Hp]; [vm_compute; intuition discriminate|]). destruct Hp. }
  assert (String.length (c_numeral c) = ndigits) as Hlen
    by (rewrite length_c_numeral, (prefixes_digits _ Hp); lia).
  assert (c_numeral c <> EmptyString) as Hne
    by (intros E; rewrite E in Hlen; simpl in Hlen; lia).
  destruct (spec_digit_product_text _ Hne Hnz) as [Hprod Hbig].
  assert (text_digit_product (c_numeral c) = c_num c) as Hnum.
  { unfold c_numeral. rewrite !text_digit_product_append, !text_digit_product_run.
    change (digit_of_ascii "5") with 5. change (digit_of_ascii "7") with 7.
    change (digit_of_ascii "8") with 8. change (digit_of_ascii "9") with 9.
    assert (text_digit_product (str (c_prefix c)) = prod (c_prefix c)) as ->
      by (clear -Hp; repeat (destruct Hp as [<-|Hp]; [reflexivity|]); destruct Hp).
    clear -Hc. unfold spec_digits_cands in Hc. apply in_flat_map in Hc as (pfx & _ & Hc).
    unfold spec_prefix_cands in Hc.
    destruct (ndigits <? digits pfx)%nat; [destruct Hc|].
    apply in_app_iff in Hc as [Hc|Hc].
    - destruct (Z.odd (prod pfx)); [|destruct Hc].
      apply in_spec_family_A in Hc as (q & d & _ & ->).
      cbn [c_prefix c_num5s c_num7s c_num8s c_num9s c_num].
      change (Z.of_nat 0) with 0. rewrite Z.pow_0_r. ring.
    - apply in_spec_family_B in Hc as (m & d & _ & ->).
      cbn [c_prefix c_num5s c_num7s c_num8s c_num9s c_num].
      change (Z.of_nat 0) with 0. rewrite Z.pow_0_r. ring. }
  assert (10 <= decimal_value (c_numeral c)) as H10.
  { eapply Z.le_trans; [|exact Hbig]. rewrite Hlen.
    change 10 with (10 ^ 1) at 1. apply Z.pow_le_mono_r; lia. }
  split; [congruence|]. split; [exact H10|].
  rewrite spec_persistence_step by exact H10. congruence.
Qed.

(** C2 on the candidate 55, compared in the run for two digits with the
    empty prefix and two 5s: [num] is 25, the program computes
    [persistence = 2], and the persistence of 55 is 3
    ([55 -> 25 -> 10 -> 0]).  [mpz_persistence 25] stops at 10, where the
    guard [mpz_cmp_ui(in, 10) > 0] fails, one step early. *)
Theorem candidate_55_persistence :
  exists e,
    In e (trace main) /\
    c_numeral (ev_cand e) = "55"%string /\
    c_num (ev_cand e) = 25 /\
    ev_persistence e = 2 /\
    spec_persistence (decimal_value (c_numeral (ev_cand e))) = 3 /\
    spec_persistence (c_num (ev_cand e)) = 2 /\
    mpz_persistence (c_num (ev_cand e)) = 1.
Proof.
  destruct (main_logged MAX_DIGITS) as (new & (T & _) & M & P).
  assert (In {| c_prefix := {| str := EmptyString; digits := 0; prod := 1 |};
                c_num5s := 2; c_num7s := 0; c_num8s := 0; c_num9s := 0; c_num := 25 |}
             (spec_enumeration MAX_DIGITS)) as Hc.
  { unfold spec_enumeration. apply in_flat_map. exists 2%nat.
    split; [apply in_seq; vm_compute; lia|].
    vm_compute. do 14 right. left. reflexivity. }
  rewrite <- M in Hc. apply in_map_iff in Hc as (e & He & Hin).
  exists e. rewrite List.Forall_forall in P. specialize (P e Hin).
  rewrite He in P. rewrite He.
  split; [unfold main; rewrite T; exact Hin|].
  split; [reflexivity|]. split; [reflexivity|].
  split; [rewrite P; vm_compute; reflexivity|].
  vm_compute. repeat split; reflexivity.
Qed.

(** * The scenarios of the specification *)

Example digit_product_steps :
  map mul_digits [39; 27; 14; 77; 49; 36; 18; 679; 378; 168; 48; 32] =
    [27; 14; 4; 49; 36; 18; 8; 378; 168; 48; 32; 6].
Proof. vm_compute. reflexivity. Qed.

Example persistence_scenarios :
  map mpz_persistence [39; 77; 679; 6788; 68889; 2677889] = [3; 4; 5; 6; 7; 8] /\
  map spec_persistence [39; 77; 679; 6788; 68889; 2677889] = [3; 4; 5; 6; 7; 8].
Proof. vm_compute. split; reflexivity. Qed.

Example run_to_12_digits :
  map (fun l => (line_persistence l, line_numeral l)) (stdout (main_upto 12)) =
    [ (3, "39"); (4, "77"); (5, "679"); (6, "6788"); (7, "68889");
      (8, "2677889"); (9, "26888999"); (10, "3778888999") ]%string.
Proof. vm_compute. reflexivity. Qed.

Example record_line_text :
  render_line {| line_persistence := 3; line_numeral := "39" |} =
    ("03:  39" +:+ String (ascii_of_nat 10) EmptyString)%string.
Proof. vm_compute. reflexivity. Qed.

(** * More on [mul_digits] *)

Lemma pow_wrap_divide b e : 0 <= e -> (b ^ wrap e | b ^ e).
Proof.
  intros He. pose proof (wrap_range e) as [Hw _]. pose proof (wrap_le e He) as Hle.
  exists (b ^ (e - wrap e)). rewrite <- Z.pow_add_r by lia. f_equal. lia.
Qed.

Lemma divide_mul a b c d : (a | b) -> (c | d) -> (a * c | b * d).
Proof. intros [x ->] [y ->]. exists (x * y). ring. Qed.

Lemma mul_digits_positive n :
  1 <= n -> ~ In 0 (spec_digits n) -> 1 <= mul_digits n.
Proof.
  intros Hn Hnz. rewrite mul_digits_nonzero_digits by assumption.
  assert (forall b e, 0 < b -> 0 < b ^ wrap e) as Hpos
    by (intros b e Hb; apply Z.pow_pos_nonneg; [exact Hb | apply wrap_range]).
  pose proof (Hpos 2 (exp2 (spec_digits n)) ltac:(lia)).
  pose proof (Hpos 3 (exp3 (spec_digits n)) ltac:(lia)).
  pose proof (Hpos 5 (occ (spec_digits n) 5) ltac:(lia)).
  pose proof (Hpos 7 (occ (spec_digits n) 7) ltac:(lia)).
  assert (0 < 2 ^ wrap (exp2 (spec_digits n)) * 3 ^ wrap (exp3 (spec_digits n))
              * 5 ^ wrap (occ (spec_digits n) 5) * 7 ^ wrap (occ (spec_digits n) 7))
    by (repeat apply Z.mul_pos_pos; assumption).
  lia.
Qed.

(** X1: for every [n >= 1], of any size, [mul_digits n] is zero exactly
    when a decimal digit of [n] is zero: the early [return] of line 36 is the
    only way to a zero result. *)
Theorem mul_digits_zero_iff (n : Z) (Hn : 1 <= n) :
  mul_digits n = 0 <-> In 0 (spec_digits n).
Proof.
  split.
  - intros Hz. destruct (in_dec Z.eq_dec 0 (spec_digits n)) as [Hin|Hnz]; [exact Hin|].
    pose proof (mul_digits_positive n Hn Hnz). lia.
  - apply mul_digits_zero_digit, Hn.
Qed.

Lemma mul_digits_zero_iff_witness :
  1 <= 3507 /\ (mul_digits 3507 = 0 <-> In 0 (spec_digits 3507)).
Proof.
  assert (1 <= 3507) as H by lia.
  split; [exact H | exact (mul_digits_zero_iff 3507 H)].
Defined.

(** X2: for every [n >= 1] without a zero digit, of any size, [mul_digits n]
    is [2^e2 * 3^e3 * 5^e5 * 7^e7] where each exponent is the regrouped count
    of lines 43-44 reduced modulo [2^32], the width of the histogram
    entries. *)
Theorem mul_digits_wrapped_exponents (n : Z) (Hn : 1 <= n)
    (Hnz : ~ In 0 (spec_digits n)) :
  mul_digits n =
    2 ^ wrap (hist2 n) * 3 ^ wrap (hist3 n)
    * 5 ^ wrap (digit_count 5 n) * 7 ^ wrap (digit_count 7 n).
Proof. exact (mul_digits_nonzero_digits n Hn Hnz). Qed.

Lemma mul_digits_wrapped_exponents_witness :
  1 <= 2677889 /\ ~ In 0 (spec_digits 2677889) /\
  mul_digits 2677889 = 2 ^ 8 * 3 ^ 3 * 5 ^ 0 * 7 ^ 2.
Proof.
  assert (1 <= 2677889) as H1 by lia.
  assert (~ In 0 (spec_digits 2677889)) as H2
    by (vm_compute; intros [H|[H|[H|[H|[H|[H|[H|[]]]]]]]]; discriminate H).
  split; [exact H1|]. split; [exact H2|].
  exact (mul_digits_wrapped_exponents 2677889 H1 H2).
Defined.

(** X3: for every [n >= 1], [mul_digits n] is non-negative, divides the
    product of the decimal digits of [n] and so never exceeds it: the
    wrap-around of the histogram can only lose factors. *)
Theorem mul_digits_divides_product (n : Z) (Hn : 1 <= n) :
  0 <= mul_digits n <= spec_digit_product n /\
  (mul_digits n | spec_digit_product n).
Proof.
  split; [apply mul_digits_le_product, Hn|].
  destruct (in_dec Z.eq_dec 0 (spec_digits n)) as [Hz|Hnz].
  - rewrite mul_digits_zero_digit by assumption. unfold spec_digit_product.
    rewrite list_product_zero by exact Hz. apply Z.divide_0_r.
  - rewrite mul_digits_nonzero_digits by assumption. unfold spec_digit_product.
    rewrite list_product_factor
      by (apply nonzero_digits; [apply spec_digits_range; lia | exact Hnz]).
    destruct (exponents_le_length (spec_digits n)) as ([H2 _] & [H3 _] & [H5 _] & [H7 _]).
    repeat apply divide_mul; apply pow_wrap_divide; assumption.
Qed.

Lemma mul_digits_divides_product_witness :
  1 <= 68889 /\ 0 <= mul_digits 68889 <= spec_digit_product 68889.
Proof.
  assert (1 <= 68889) as H by lia.
  split; [exact H | exact (proj1 (mul_digits_divides_product 68889 H))].
Defined.

(** X4: on an input that is zero or negative the digit loop does not run,
    the histogram stays empty and [mul_digits] leaves the empty product 1 in
    [out]. *)
Theorem mul_digits_no_digits (n : Z) (Hn : n <= 0) : mul_digits n = 1.
Proof. exact (mul_digits_nonpos n Hn). Qed.

Lemma mul_digits_no_digits_witness : 0 <= 0 /\ mul_digits 0 = 1.
Proof.
  assert (0 <= 0) as H by lia.
  split; [exact H | exact (mul_digits_no_digits 0 H)].
Defined.

(** X5: two numbers without zero digits whose digits carry the same prime
    factors (the same regrouped exponents of 2, 3, 5 and 7) have the same
    [mul_digits], as 7236 and 479 in the comment of lines 90-108. *)
Theorem mul_digits_same_factors (n m : Z) (Hn : 1 <= n) (Hm : 1 <= m)
    (Hnz : ~ In 0 (spec_digits n)) (Hmz : ~ In 0 (spec_digits m))
    (H2 : hist2 n = hist2 m) (H3 : hist3 n = hist3 m)
    (H5 : digit_count 5 n = digit_count 5 m)
    (H7 : digit_count 7 n = digit_count 7 m) :
  mul_digits n = mul_digits m.
Proof.
  rewrite (mul_digits_nonzero_digits n Hn Hnz), (mul_digits_nonzero_digits m Hm Hmz).
  destruct (hist_exponents n) as [<- <-]. destruct (hist_exponents m) as [<- <-].
  unfold digit_count in H5, H7.
  fold (occ (spec_digits n) 5) (occ (spec_digits m) 5) in H5.
  fold (occ (spec_digits n) 7) (occ (spec_digits m) 7) in H7.
  rewrite H2, H3, H5, H7. reflexivity.
Qed.

Lemma mul_digits_same_factors_witness :
  1 <= 7236 /\ 1 <= 479 /\ mul_digits 7236 = mul_digits 479.
Proof.
  assert (1 <= 7236) as H1 by lia. assert (1 <= 479) as H2 by lia.
  split; [exact H1|]. split; [exact H2|].
  apply (mul_digits_same_factors 7236 479 H1 H2).
  - vm_compute. intros [H|[H|[H|[H|[]]]]]; discriminate H.
  - vm_compute. intros [H|[H|[H|[]]]]; discriminate H.
  - vm_compute. reflexivity.
  - vm_compute. reflexivity.
  - vm_compute. reflexivity.
  - vm_compute. reflexivity.
Defined.

(** * More on [mpz_persistence] *)

(** X6: [mpz_persistence] obeys, on every input, the equation of its loop:
    0 up to 10, and above 10 one more (on the [unsigned] counter) than on the
    digit product left by [mul_digits]; its result is, modulo [2^32], the
    number of [mul_digits] steps that bring the input to a value of at most
    10. *)
Theorem mpz_persistence_equation (n : Z) :
  mpz_persistence n =
    (if n <=? 10 then 0 else wrap (1 + mpz_persistence (mul_digits n))) /\
  exists k, first_below mul_digits 11 n k /\ mpz_persistence n = wrap (Z.of_nat k).
Proof.
  split; [|apply mpz_persistence_counts].
  destruct (Z.leb_spec n 10) as [H|H].
  - apply mpz_persistence_stop, H.
  - apply mpz_persistence_step, H.
Qed.

Lemma spec_digit_product_contracts v :
  10 <= v -> 10 * spec_digit_product v <= 9 * v.
Proof.
  intros Hv. rewrite spec_digit_product_step by exact Hv.
  pose proof (Z.mod_pos_bound v 10 ltac:(lia)) as Hm.
  assert (0 < v / 10) as Hq by (apply Z.div_str_pos; lia).
  pose proof (spec_digit_product_bounds (v / 10) ltac:(lia)) as Hp.
  pose proof (Z.div_mod v 10 ltac:(lia)) as Hd. nia.
Qed.

Lemma mul_digits_contracts v :
  11 <= v -> 0 <= mul_digits v /\ 10 * mul_digits v <= 9 * v.
Proof.
  intros Hv. pose proof (mul_digits_le_product v ltac:(lia)).
  pose proof (spec_digit_product_contracts v ltac:(lia)). lia.
Qed.

Lemma value_lt_pow_length n :
  0 <= n -> n < 10 ^ Z.of_nat (length (spec_digits n)).
Proof.
  intros Hn. generalize Hn. pattern n. apply Z_lt_induction; [|exact Hn].
  clear n Hn. intros n IH Hn. destruct (Z_lt_le_dec n 10) as [Hs|Hl].
  - rewrite spec_digits_small by exact Hs. simpl. lia.
  - rewrite spec_digits_step by exact Hl.
    change (length (n mod 10 :: spec_digits (n / 10)))
      with (S (length (spec_digits (n / 10)))).
    rewrite Nat2Z.inj_succ, Z.pow_succ_r by lia.
    assert (0 <= n / 10 < n) as Hq
      by (split; [apply Z.div_pos; lia | apply Z.div_lt; lia]).
    pose proof (IH _ Hq ltac:(lia)).
    pose proof (Z.mod_pos_bound n 10 ltac:(lia)).
    pose proof (Z.div_mod n 10 ltac:(lia)). lia.
Qed.

Lemma length_spec_digits_pos n : (1 <= length (spec_digits n))%nat.
Proof.
  unfold spec_digits. destruct (Z.to_nat (Z.log2 n)); simpl; [lia|].
  destruct (n <? 10); simpl; lia.
Qed.

Lemma length_spec_digits_mono b : forall a,
  0 <= a <= b -> (length (spec_digits a) <= length (spec_digits b))%nat.
Proof.
  assert (0 <= b \/ b < 0) as [Hb|Hb] by lia; [|intros a Ha; lia].
  generalize Hb. pattern b. apply Z_lt_induction; [|exact Hb].
  clear b Hb. intros b IH Hb a Ha.
  destruct (Z_lt_le_dec a 10) as [Hs|Hl].
  - rewrite (spec_digits_small a) by exact Hs. apply length_spec_digits_pos.
  - rewrite (spec_digits_step a), (spec_digits_step b) by lia. simpl.
    apply le_n_S, IH.
    + split; [apply Z.div_pos; lia | apply Z.div_lt; lia].
    + apply Z.div_pos; lia.
    + split; [apply Z.div_pos; lia | apply Z.div_le_mono; lia].
Qed.

(** A map that takes a tenth off every value from [limit] on reaches a value
    below [limit] within 22 steps per decimal digit. *)
Lemma iter_contracts (f : Z -> Z) limit n (k : nat) :
  10 <= limit ->
  (forall v, limit <= v -> 0 <= f v /\ 10 * f v <= 9 * v) ->
  first_below f limit n (S k) ->
  10 ^ Z.of_nat k * 10 <= 9 ^ Z.of_nat k * n.
Proof.
  intros Hlim Hf [_ L].
  assert (forall m, (m <= k)%nat ->
            10 ^ Z.of_nat m * Nat.iter m f n <= 9 ^ Z.of_nat m * n) as Hinv.
  { induction m as [|m IHm]; intros Hm.
    - simpl. lia.
    - specialize (IHm ltac:(lia)). pose proof (L m ltac:(lia)) as Hge.
      destruct (Hf _ Hge) as [_ Hc]. rewrite Nat.iter_succ.
      rewrite Nat2Z.inj_succ, !Z.pow_succ_r by lia.
      assert (0 < 10 ^ Z.of_nat m) by (apply Z.pow_pos_nonneg; lia). nia. }
  specialize (Hinv k (Nat.le_refl k)). pose proof (L k ltac:(lia)) as Hge.
  assert (0 < 10 ^ Z.of_nat k) by (apply Z.pow_pos_nonneg; lia). nia.
Qed.

Lemma pow_10_over_9 (D : nat) : forall j : nat,
  10 ^ Z.of_nat D * 9 ^ Z.of_nat (22 * D + j) <= 10 ^ Z.of_nat (22 * D + j).
Proof.
  induction D as [|D IH]; intros j.
  - simpl Nat.mul. simpl Nat.add. rewrite Z.pow_0_r, Z.mul_1_l.
    apply Z.pow_le_mono_l. lia.
  - replace (22 * S D + j)%nat with (22 + (22 * D + j))%nat by lia.
    specialize (IH j). rewrite Nat2Z.inj_succ, Z.pow_succ_r by lia.
    rewrite (Nat2Z.inj_add 22), !Z.pow_add_r by lia.
    assert (10 * 9 ^ Z.of_nat 22 <= 10 ^ Z.of_nat 22) as Hc by (vm_compute; discriminate).
    assert (0 < 9 ^ Z.of_nat (22 * D + j)) by (apply Z.pow_pos_nonneg; lia).
    assert (0 < 10 ^ Z.of_nat D) by (apply Z.pow_pos_nonneg; lia).
    set (a := 9 ^ Z.of_nat 22) in *. set (b := 10 ^ Z.of_nat 22) in *.
    set (x := 10 ^ Z.of_nat D) in *. set (y := 9 ^ Z.of_nat (22 * D + j)) in *.
    set (z := 10 ^ Z.of_nat (22 * D + j)) in *.
    assert (0 < a) by (subst a; vm_compute; reflexivity).
    transitivity ((10 * a) * (x * y)); [lia|].
    transitivity (b * (x * y)); [|apply Z.mul_le_mono_nonneg_l; lia].
    apply Z.mul_le_mono_nonneg_r; [nia | exact Hc].
Qed.

Lemma iterations_bound (f : Z -> Z) limit n (D k : nat) :
  10 <= limit ->
  (forall v, limit <= v -> 0 <= f v /\ 10 * f v <= 9 * v) ->
  n < 10 ^ Z.of_nat D ->
  first_below f limit n k -> (k <= 22 * D)%nat.
Proof.
  intros Hlim Hf Hn F.
  destruct (Nat.le_gt_cases k (22 * D)) as [H|H]; [exact H|exfalso].
  destruct k as [|k]; [lia|].
  pose proof (iter_contracts f limit n k Hlim Hf F) as Hc.
  pose proof (pow_10_over_9 D (k - 22 * D)) as Hr.
  replace (22 * D + (k - 22 * D))%nat with k in Hr by lia.
  assert (0 < 9 ^ Z.of_nat k) by (apply Z.pow_pos_nonneg; lia).
  assert (0 < 10 ^ Z.of_nat k) by (apply Z.pow_pos_nonneg; lia).
  assert (9 ^ Z.of_nat k * n < 9 ^ Z.of_nat k * 10 ^ Z.of_nat D)
    by (apply Z.mul_lt_mono_pos_l; assumption).
  lia.
Qed.

Lemma mpz_persistence_count_bound n :
  0 <= n ->
  exists k, first_below mul_digits 11 n k /\ mpz_persistence n = wrap (Z.of_nat k) /\
    (k <= 22 * length (spec_digits n))%nat.
Proof.
  intros Hn. destruct (mpz_persistence_counts n) as (k & F & E).
  exists k. split; [exact F|]. split; [exact E|].
  apply (iterations_bound mul_digits 11 n _ k); [lia | | | exact F].
  - intros v Hv. apply mul_digits_contracts, Hv.
  - apply value_lt_pow_length, Hn.
Qed.

(** X7: for every [n >= 0] the loop of [mpz_persistence] makes at most 22
    iterations per decimal digit of [n]; the result never exceeds that
    bound, and for inputs of fewer than [2^32 / 22] digits the [unsigned]
    counter does not wrap: the result is the number of iterations made. *)
Theorem mpz_persistence_bounded (n : Z) (Hn : 0 <= n) :
  mpz_persistence n <= 22 * Z.of_nat (length (spec_digits n)) /\
  (22 * Z.of_nat (length (spec_digits n)) < 2 ^ UINT_BITS ->
   first_below mul_digits 11 n (Z.to_nat (mpz_persistence n))).
Proof.
  destruct (mpz_persistence_count_bound n Hn) as (k & F & E & Hk).
  rewrite E. split.
  - pose proof (wrap_le (Z.of_nat k) ltac:(lia)). lia.
  - intros Hs. rewrite wrap_small by lia. rewrite Nat2Z.id. exact F.
Qed.

Lemma mpz_persistence_bounded_witness :
  0 <= 277777788888899 /\ mpz_persistence 277777788888899 <= 22 * 15.
Proof.
  assert (0 <= 277777788888899) as H by lia.
  split; [exact H|].
  exact (proj1 (mpz_persistence_bounded 277777788888899 H)).
Defined.

Lemma iter_fixed_small (k : nat) d :
  d < 10 -> Nat.iter k spec_digit_product d = d.
Proof.
  intros Hd. induction k as [|k IH]; [reflexivity|].
  rewrite Nat.iter_succ, IH. apply spec_digit_product_small, Hd.
Qed.

Lemma mul_digits_exact n :
  1 <= n -> fits_unsigned n -> mul_digits n = spec_digit_product n.
Proof.
  intros Hn Hfit. destruct (in_dec Z.eq_dec 0 (spec_digits n)) as [Hz|Hnz].
  - rewrite mul_digits_zero_digit by assumption. unfold spec_digit_product.
    rewrite list_product_zero by exact Hz. reflexivity.
  - rewrite mul_digits_prime_form, spec_digit_product_prime_form by (assumption || lia).
    reflexivity.
Qed.

(** While the values stay at 10 or more, and for inputs whose histogram
    fits, [mul_digits] walks the orbit of the digit product. *)
Lemma iter_mul_digits_agrees n (k : nat) :
  0 <= n -> 3 * Z.of_nat (length (spec_digits n)) < 2 ^ UINT_BITS ->
  (forall m, (m < k)%nat -> 10 <= Nat.iter m spec_digit_product n) ->
  forall m, (m <= k)%nat ->
    Nat.iter m mul_digits n = Nat.iter m spec_digit_product n /\
    0 <= Nat.iter m spec_digit_product n <= n.
Proof.
  intros Hn Hsize Hge. induction m as [|m IH]; intros Hm.
  - simpl. lia.
  - destruct (IH ltac:(lia)) as [E [B1 B2]]. pose proof (Hge m ltac:(lia)) as H10.
    rewrite !Nat.iter_succ, E. set (x := Nat.iter m spec_digit_product n) in *.
    pose proof (spec_digit_product_bounds x B1) as Hb.
    split; [|lia].
    apply mul_digits_exact; [lia|]. apply short_fits_unsigned.
    pose proof (length_spec_digits_mono n x ltac:(lia)). lia.
Qed.

Lemma mpz_persistence_up_to_ten n :
  0 <= n -> 22 * Z.of_nat (length (spec_digits n)) < 2 ^ UINT_BITS ->
  persistence_up_to_ten (mpz_persistence n) n.
Proof.
  intros Hn Hsize. unfold persistence_up_to_ten.
  destruct (spec_persistence_counts n) as (ks & Fs & Es).
  destruct (mpz_persistence_count_bound n Hn) as (kc & Fc & Ec & Hkc).
  assert (mpz_persistence n = Z.of_nat kc) as Ekc
    by (rewrite Ec; apply wrap_small; lia).
  destruct Fs as [Bs Ls].
  pose proof (iter_mul_digits_agrees n ks Hn ltac:(lia) Ls) as Hag.
  split.
  - intros Havoid. rewrite Ekc, Es. f_equal.
    apply (first_below_unique mul_digits 11 n); [exact Fc|]. split.
    + rewrite (proj1 (Hag ks (Nat.le_refl ks))). lia.
    + intros m Hm. rewrite (proj1 (Hag m ltac:(lia))).
      pose proof (Ls m Hm). pose proof (Havoid m). lia.
  - intros (m0 & H0).
    assert (m0 < ks)%nat as Hlt.
    { destruct (Nat.lt_ge_cases m0 ks) as [H|H]; [exact H|exfalso].
      replace m0 with ((m0 - ks) + ks)%nat in H0 by lia.
      rewrite Nat.iter_add, iter_fixed_small in H0 by exact Bs. lia. }
    assert (ks = S m0) as ->.
    { destruct (Nat.lt_ge_cases (S m0) ks) as [H|H]; [exfalso|lia].
      pose proof (Ls (S m0) H) as Hge. rewrite Nat.iter_succ, H0 in Hge.
      vm_compute in Hge. apply Hge. reflexivity. }
    rewrite Ekc, Es. replace (Z.of_nat (S m0) - 1) with (Z.of_nat m0) by lia.
    f_equal. apply (first_below_unique mul_digits 11 n); [exact Fc|]. split.
    + rewrite (proj1 (Hag m0 ltac:(lia))), H0. lia.
    + intros m Hm. rewrite (proj1 (Hag m ltac:(lia))).
      pose proof (Ls m ltac:(lia)) as Hge.
      assert (Nat.iter m spec_digit_product n <> 10) as Hne.
      { intros E. pose proof (Ls (S m) ltac:(lia)) as Hge'.
        rewrite Nat.iter_succ, E in Hge'. vm_compute in Hge'. apply Hge'. reflexivity. }
      lia.
Qed.

(** X8: for every [n >= 0] of fewer than [2^32 / 22] digits,
    [mpz_persistence n] is the multiplicative persistence of [n] when the
    orbit of [n] under the digit product never passes through 10, and one
    less when it does: the guard [mpz_cmp_ui(in, 10) > 0] stops at 10
    without taking the step [10 -> 0]. *)
Theorem mpz_persistence_vs_persistence (n : Z) (Hn : 0 <= n)
    (Hsize : 22 * Z.of_nat (length (spec_digits n)) < 2 ^ UINT_BITS) :
  ((forall m, Nat.iter m spec_digit_product n <> 10) ->
   mpz_persistence n = spec_persistence n) /\
  ((exists m, Nat.iter m spec_digit_product n = 10) ->
   mpz_persistence n = spec_persistence n - 1).
Proof. exact (mpz_persistence_up_to_ten n Hn Hsize). Qed.

Lemma mpz_persistence_vs_persistence_witness :
  0 <= 55 /\ 22 * Z.of_nat (length (spec_digits 55)) < 2 ^ UINT_BITS /\
  mpz_persistence 55 = spec_persistence 55 - 1.
Proof.
  assert (0 <= 55) as H1 by lia.
  assert (22 * Z.of_nat (length (spec_digits 55)) < 2 ^ UINT_BITS) as H2
    by (vm_compute; reflexivity).
  split; [exact H1|]. split; [exact H2|].
  apply (proj2 (mpz_persistence_vs_persistence 55 H1 H2)).
  exists 2%nat. vm_compute. reflexivity.
Defined.

(** * More on [main] *)

Lemma main_trace max_digits :
  exists new,
    trace (main_upto max_digits) = new /\
    stdout (main_upto max_digits) = map ev_line (List.filter ev_printed new) /\
    chained 2 new (max (main_upto max_digits)) /\
    map ev_cand new = spec_enumeration max_digits /\
    Forall (fun e => ev_persistence e = wrap (1 + mpz_persistence (c_num (ev_cand e)))) new.
Proof.
  destruct (main_logged max_digits) as (new & (T & O & C) & M & P).
  exists new. repeat split; assumption.
Qed.

Lemma in_spec_enumeration max_digits c :
  In c (spec_enumeration max_digits) <->
  exists D, (2 <= D <= max_digits)%nat /\ In c (spec_digits_cands D).
Proof.
  unfold spec_enumeration. rewrite in_flat_map. split.
  - intros (D & HD & Hc). exists D. apply in_seq in HD. split; [lia | exact Hc].
  - intros (D & HD & Hc). exists D. split; [apply in_seq; lia | exact Hc].
Qed.


(** X10: every number [main] hands to [mpz_persistence] is the product of
    the decimal digits of the candidate's numeral (the prefix followed by the
    runs of 5s, 7s, 8s and 9s), which has between 2 and [MAX_DIGITS] digits
    and is at least 10: the first digit-product step is taken on the factors,
    which is what the [1 +] of lines 176 and 213 counts. *)
Theorem main_first_step (max_digits : nat) :
  Forall (fun e =>
    let c := ev_cand e in
    c_num c = spec_digit_product (decimal_value (c_numeral c)) /\
    10 <= decimal_value (c_numeral c) /\
    (2 <= String.length (c_numeral c) <= max_digits)%nat)
    (trace (main_upto max_digits)).
Proof.
  destruct (main_trace max_digits) as (new & -> & _ & _ & M & _).
  apply List.Forall_forall. intros e He. cbv zeta.
  assert (In (ev_cand e) (spec_enumeration max_digits)) as Hc
    by (rewrite <- M; apply in_map, He).
  apply in_spec_enumeration in Hc as (D & HD & Hc).
  destruct (candidate_first_step D _ ltac:(lia) Hc) as (H1 & H2 & _).
  destruct (spec_digits_cands_counters _ _ Hc) as [Hp Hsum].
  split; [exact H1|]. split; [exact H2|].
  rewrite length_c_numeral, (prefixes_digits _ Hp). lia.
Qed.

Lemma decimal_value_from_upper s : forall acc,
  0 <= acc -> nonzero_digits_text s ->
  decimal_value_from acc s < (acc + 1) * 10 ^ Z.of_nat (String.length s).
Proof.
  induction s as [|c s IH]; intros acc Hacc Hs.
  - simpl. lia.
  - destruct Hs as [Hc Hs]. simpl decimal_value_from.
    specialize (IH (acc * 10 + digit_of_ascii c) ltac:(lia) Hs).
    change (String.length (String c s)) with (S (String.length s)).
    rewrite Nat2Z.inj_succ, Z.pow_succ_r by lia.
    assert (0 < 10 ^ Z.of_nat (String.length s)) by (apply Z.pow_pos_nonneg; lia).
    nia.
Qed.

Lemma text_digit_product_pos s : nonzero_digits_text s -> 1 <= text_digit_product s.
Proof.
  induction s as [|c s IH]; intros Hs; simpl; [lia|].
  destruct Hs as [Hc Hs]. specialize (IH Hs). nia.
Qed.

Lemma length_spec_digits_le x : forall D : nat,
  (1 <= D)%nat -> 0 <= x < 10 ^ Z.of_nat D -> (length (spec_digits x) <= D)%nat.
Proof.
  assert (0 <= x \/ x < 0) as [Hx|Hx] by lia; [|intros D _ HD; lia].
  generalize Hx. pattern x. apply Z_lt_induction; [|exact Hx].
  clear x Hx. intros x IH Hx D H1 HD.
  destruct D as [|D]; [lia|].
  destruct (Z_lt_le_dec x 10) as [Hs|Hl].
  - rewrite spec_digits_small by exact Hs. simpl. lia.
  - rewrite spec_digits_step by exact Hl. simpl.
    rewrite Nat2Z.inj_succ, Z.pow_succ_r in HD by lia.
    assert (1 <= x / 10) by (apply Z.div_le_lower_bound; lia).
    assert (x / 10 < 10 ^ Z.of_nat D) by (apply Z.div_lt_upper_bound; lia).
    assert (1 <= D)%nat by (destruct D; [simpl in *; lia | lia]).
    apply le_n_S, IH; try lia.
    split; [lia | apply Z.div_lt; lia].
Qed.

Lemma candidate_nonzero_text ndigits c :
  In c (spec_digits_cands ndigits) -> nonzero_digits_text (c_numeral c).
Proof.
  intros Hc. destruct (spec_digits_cands_counters _ _ Hc) as [Hp _].
  unfold c_numeral.
  repeat apply nonzero_digits_text_append;
    try (apply nonzero_digits_text_run; vm_compute; split; discriminate).
  repeat (destruct Hp as [<-|Hp]; [vm_compute; intuition discriminate|]). destruct Hp.
Qed.

(** What [main] computes for one candidate, against the persistence of its
    numeral. *)
Lemma candidate_persistence (max_digits ndigits : nat) c :
  22 * Z.of_nat max_digits + 1 < 2 ^ UINT_BITS ->
  (2 <= ndigits <= max_digits)%nat -> In c (spec_digits_cands ndigits) ->
  persistence_up_to_ten (wrap (1 + mpz_persistence (c_num c)))
    (decimal_value (c_numeral c)).
Proof.
  intros Hsize HD Hc.
  destruct (candidate_first_step ndigits c ltac:(lia) Hc) as (Hnum & H10 & Hstep).
  pose proof (candidate_nonzero_text _ _ Hc) as Hnz.
  destruct (spec_digits_cands_counters _ _ Hc) as [Hp Hsum].
  assert (String.length (c_numeral c) = ndigits) as Hlen
    by (rewrite length_c_numeral, (prefixes_digits _ Hp); lia).
  assert (c_numeral c <> EmptyString) as Hne
    by (intros E; rewrite E in Hlen; simpl in Hlen; lia).
  assert (1 <= c_num c) as Hpos.
  { rewrite Hnum, (proj1 (spec_digit_product_text _ Hne Hnz)).
    apply text_digit_product_pos, Hnz. }
  assert (decimal_value (c_numeral c) < 10 ^ Z.of_nat ndigits) as Hup.
  { unfold decimal_value. rewrite <- Hlen.
    pose proof (decimal_value_from_upper (c_numeral c) 0 ltac:(lia) Hnz). lia. }
  set (v := decimal_value (c_numeral c)) in *. clearbody v.
  pose proof (spec_digit_product_bounds v ltac:(lia)) as Hb. rewrite <- Hnum in Hb.
  assert (length (spec_digits (c_num c)) <= ndigits)%nat as Hl
    by (apply length_spec_digits_le; lia).
  assert (22 * Z.of_nat (length (spec_digits (c_num c))) < 2 ^ UINT_BITS) as Hs by lia.
  destruct (mpz_persistence_up_to_ten (c_num c) ltac:(lia) Hs) as [Ha Hh].
  destruct (mpz_persistence_count_bound (c_num c) ltac:(lia)) as (k & _ & Ek & Hk).
  assert (0 <= mpz_persistence (c_num c) <= 22 * Z.of_nat max_digits) as Hm.
  { rewrite Ek. pose proof (wrap_range (Z.of_nat k)).
    pose proof (wrap_le (Z.of_nat k) ltac:(lia)). lia. }
  rewrite wrap_small by lia. split.
  - intros Havoid. rewrite Hstep, Ha; [reflexivity|].
    intros m. rewrite Hnum, <- Nat.iter_succ_r. apply Havoid.
  - intros (m & Hm10). rewrite Hstep, Hh; [lia|].
    destruct m as [|m].
    + simpl in Hm10. exfalso. rewrite Hm10 in Hnum.
      change (spec_digit_product 10) with 0 in Hnum. lia.
    + exists m. rewrite Hnum, <- Nat.iter_succ_r. exact Hm10.
Qed.

(** X11: for [MAX_DIGITS] below [2^32 / 22] (as the default 100), the
    [persistence] that [main] computes for a candidate, and prints on its
    record line, is the multiplicative persistence of the candidate's
    numeral, except that it is one less when the orbit of the numeral under
    the digit product passes through 10. *)
Theorem main_persistence_up_to_ten (max_digits : nat)
    (Hsize : 22 * Z.of_nat max_digits + 1 < 2 ^ UINT_BITS) :
  Forall (fun e =>
    persistence_up_to_ten (ev_persistence e) (decimal_value (c_numeral (ev_cand e))))
    (trace (main_upto max_digits)) /\
  Forall (fun l =>
    persistence_up_to_ten (line_persistence l) (decimal_value (line_numeral l)))
    (stdout (main_upto max_digits)).
Proof.
  destruct (main_trace max_digits) as (new & -> & -> & _ & M & P).
  assert (Forall (fun e =>
    persistence_up_to_ten (ev_persistence e) (decimal_value (c_numeral (ev_cand e))))
    new) as HF.
  { apply List.Forall_forall. intros e He.
    rewrite List.Forall_forall in P. rewrite (P e He).
    assert (In (ev_cand e) (spec_enumeration max_digits)) as Hc
      by (rewrite <- M; apply in_map, He).
    apply in_spec_enumeration in Hc as (D & HD & Hc).
    apply (candidate_persistence max_digits D); assumption. }
  split; [exact HF|].
  apply Forall_map. apply List.Forall_forall. intros e He.
  apply List.filter_In in He as [He _].
  rewrite List.Forall_forall in HF. apply (HF e He).
Qed.

Lemma main_persistence_up_to_ten_witness :
  22 * Z.of_nat 100 + 1 < 2 ^ UINT_BITS /\
  Forall (fun l =>
    persistence_up_to_ten (line_persistence l) (decimal_value (line_numeral l)))
    (stdout main).
Proof.
  assert (22 * Z.of_nat 100 + 1 < 2 ^ UINT_BITS) as H by (vm_compute; reflexivity).
  split; [exact H | exact (proj2 (main_persistence_up_to_ten 100 H))].
Defined.

Lemma length_triangle {B : Type} (g : nat -> nat -> B) (b : nat) :
  (2 * length (flat_map (fun q => map (g q) (seq 0 (S q))) (seq 0 b)) = b * (b + 1))%nat.
Proof.
  induction b as [|b IH]; [reflexivity|].
  rewrite seq_S, flat_map_app, List.length_app. cbn [flat_map].
  rewrite app_nil_r, List.length_map, List.length_seq. lia.
Qed.

(** X12: for a prefix that is not longer than the digit count, with
    [R = digits - prefix->digits], the loops of lines 152-233 call
    [mpz_persistence] [(R+1)(R+2)/2] times for family B and, when the prefix
    product is odd, [R(R+1)/2] more times for family A. *)
Theorem search_prefix_calls (ndigits : nat) (pfx : prefix) (st : state)
    (Hlen : (digits pfx <= ndigits)%nat) :
  let R := (ndigits - digits pfx)%nat in
  (2 * length (trace (search_prefix ndigits pfx st)) =
   2 * length (trace st)
   + (if Z.odd (prod pfx) then R * (R + 1) else 0) + (R + 1) * (R + 2))%nat.
Proof.
  cbv zeta. destruct (search_prefix_logged ndigits pfx st) as (new & (T & _) & M & _).
  rewrite T, List.length_app, <- (List.length_map ev_cand new), M.
  unfold spec_prefix_cands.
  destruct (Nat.ltb_spec ndigits (digits pfx)) as [Hlt|_]; [lia|].
  set (R := (ndigits - digits pfx)%nat). clearbody R.
  pose proof (length_triangle (fun q d =>
      {| c_prefix := pfx; c_num5s := R - q; c_num7s := q - d; c_num8s := 0;
         c_num9s := d;
         c_num := 5 ^ Z.of_nat (R - q) * 7 ^ Z.of_nat (q - d)
                  * 9 ^ Z.of_nat d * prod pfx |}) R) as HA.
  pose proof (length_triangle (fun m d =>
      {| c_prefix := pfx; c_num5s := 0; c_num7s := R - m; c_num8s := m - d;
         c_num9s := d;
         c_num := 7 ^ Z.of_nat (R - m) * 8 ^ Z.of_nat (m - d)
                  * 9 ^ Z.of_nat d * prod pfx |}) (S R)) as HB.
  change (2 * length (spec_family_A R pfx) = R * (R + 1))%nat in HA.
  change (2 * length (spec_family_B R pfx) = S R * (S R + 1))%nat in HB.
  rewrite List.length_app.
  destruct (Z.odd (prod pfx)); [|change (length (@nil candidate)) with 0%nat]; lia.
Qed.

Lemma search_prefix_calls_witness :
  (digits {| str := "3"; digits := 1; prod := 3 |} <= 4)%nat /\
  length (trace (search_prefix 4 {| str := "3"; digits := 1; prod := 3 |} init_state))
    = 16%nat.
Proof.
  assert (digits {| str := "3"; digits := 1; prod := 3 |} <= 4)%nat as H by (simpl; lia).
  split; [exact H|].
  pose proof (search_prefix_calls 4 {| str := "3"; digits := 1; prod := 3 |} init_state H)
    as Hc.
  cbv zeta in Hc. revert Hc.
  generalize (length (trace (search_prefix 4 {| str := "3"; digits := 1; prod := 3 |}
                                init_state))).
  intros L Hc. change (2 * L = 32)%nat in Hc. lia.
Defined.

(** * No numeral is compared twice *)

Lemma nodup_app {A : Type} (l1 l2 : list A) :
  List.NoDup l1 -> List.NoDup l2 -> (forall x, In x l1 -> ~ In x l2) ->
  List.NoDup (l1 ++ l2).
Proof.
  intros H1 H2 Hd. induction H1 as [|a l1 Ha H1 IH]; simpl; [exact H2|].
  constructor.
  - intros Hin. apply in_app_iff in Hin as [Hin|Hin]; [exact (Ha Hin)|].
    apply (Hd a); [left; reflexivity | exact Hin].
  - apply IH. intros x Hx. apply Hd. right. exact Hx.
Qed.

Lemma nodup_flat_map_key {A B : Type} (key : B -> A) (f : A -> list B) (l : list A) :
  List.NoDup l -> (forall x, In x l -> List.NoDup (f x)) ->
  (forall x y, In x l -> In y (f x) -> key y = x) ->
  List.NoDup (flat_map f l).
Proof.
  intros Hl. induction Hl as [|a l Ha Hl IH]; intros Hf Hkey; simpl; [constructor|].
  apply nodup_app.
  - apply Hf. left. reflexivity.
  - apply IH.
    + intros x Hx. apply Hf. right. exact Hx.
    + intros x y Hx Hy. apply Hkey; [right; exact Hx | exact Hy].
  - intros y Hy1 Hy2. apply in_flat_map in Hy2 as (x & Hx & Hy2).
    assert (key y = a) as E1 by (apply Hkey; [left; reflexivity | exact Hy1]).
    assert (key y = x) as E2 by (apply Hkey; [right; exact Hx | exact Hy2]).
    apply Ha. congruence.
Qed.

Lemma nodup_map_inj {A B : Type} (f : A -> B) (l : list A) :
  List.NoDup l -> (forall x y, In x l -> In y l -> f x = f y -> x = y) ->
  List.NoDup (map f l).
Proof.
  intros Hl. induction Hl as [|a l Ha Hl IH]; intros Hinj; simpl; constructor.
  - intros Hin. apply in_map_iff in Hin as (x & E & Hx).
    apply Ha. rewrite <- (Hinj x a); [exact Hx | right; exact Hx | left; reflexivity | exact E].
  - apply IH. intros x y Hx Hy. apply Hinj; right; assumption.
Qed.

Lemma nodup_map_key {A B : Type} (key : B -> A) (g : A -> B) (l : list A) :
  List.NoDup l -> (forall x, In x l -> key (g x) = x) -> List.NoDup (map g l).
Proof.
  intros Hl Hkey. apply nodup_map_inj; [exact Hl|].
  intros x y Hx Hy E. rewrite <- (Hkey x Hx), <- (Hkey y Hy), E. reflexivity.
Qed.

Lemma spec_family_A_nodup R pfx : List.NoDup (spec_family_A R pfx).
Proof.
  unfold spec_family_A.
  apply (nodup_flat_map_key (fun c => (R - c_num5s c)%nat)); [apply seq_NoDup| |].
  - intros q _. apply (nodup_map_key c_num9s); [apply seq_NoDup|]. reflexivity.
  - intros q c Hq Hc. apply in_seq in Hq. apply in_map_iff in Hc as (d & <- & _).
    simpl. lia.
Qed.

Lemma spec_family_B_nodup R pfx : List.NoDup (spec_family_B R pfx).
Proof.
  unfold spec_family_B.
  apply (nodup_flat_map_key (fun c => (R - c_num7s c)%nat)); [apply seq_NoDup| |].
  - intros m _. apply (nodup_map_key c_num9s); [apply seq_NoDup|]. reflexivity.
  - intros m c Hm Hc. apply in_seq in Hm. apply in_map_iff in Hc as (d & <- & _).
    simpl. lia.
Qed.

Lemma prefixes_nodup : List.NoDup prefixes.
Proof.
  unfold prefixes.
  repeat (constructor; [simpl; intuition discriminate|]). constructor.
Qed.

Lemma spec_prefix_cands_prefix ndigits pfx c :
  In c (spec_prefix_cands ndigits pfx) -> c_prefix c = pfx.
Proof.
  unfold spec_prefix_cands. destruct (ndigits <? digits pfx)%nat; [intros []|].
  intros Hc. apply in_app_iff in Hc as [Hc|Hc].
  - destruct (Z.odd (prod pfx)); [|destruct Hc].
    apply in_spec_family_A in Hc as (q & d & _ & ->). reflexivity.
  - apply in_spec_family_B in Hc as (m & d & _ & ->). reflexivity.
Qed.

Lemma spec_enumeration_nodup max_digits : List.NoDup (spec_enumeration max_digits).
Proof.
  unfold spec_enumeration.
  apply (nodup_flat_map_key
           (fun c => (digits (c_prefix c) + c_num5s c + c_num7s c + c_num8s c
                      + c_num9s c)%nat)); [apply seq_NoDup| |].
  - intros D _. unfold spec_digits_cands.
    apply (nodup_flat_map_key c_prefix); [apply prefixes_nodup| |].
    + intros pfx _. unfold spec_prefix_cands.
      destruct (D <? digits pfx)%nat; [constructor|].
      apply nodup_app; [|apply spec_family_B_nodup|].
      * destruct (Z.odd (prod pfx)); [apply spec_family_A_nodup | constructor].
      * intros c HA HB. destruct (Z.odd (prod pfx)); [|destruct HA].
        apply in_spec_family_A in HA as (q & d & [Hq _] & ->).
        apply in_spec_family_B in HB as (m & d' & _ & E).
        apply (f_equal c_num5s) in E. simpl in E. lia.
    + intros pfx c _ Hc. apply (spec_prefix_cands_prefix D), Hc.
  - intros D c _ Hc. destruct (spec_digits_cands_counters _ _ Hc) as [_ [[? ?]|[? ?]]]; lia.
Qed.

Lemma count_char_append a s1 s2 :
  count_char a (s1 +:+ s2) = (count_char a s1 + count_char a s2)%nat.
Proof.
  induction s1 as [|c s1 IH]; [reflexivity|].
  change (count_char a (String c s1 +:+ s2))
    with ((if Ascii.eqb c a then 1 else 0) + count_char a (s1 +:+ s2))%nat.
  rewrite IH. simpl. lia.
Qed.

Lemma count_char_run a c n :
  count_char a (digit_run c n) = if Ascii.eqb c a then n else 0%nat.
Proof.
  induction n as [|n IH]; simpl; [destruct (Ascii.eqb c a); reflexivity|].
  rewrite IH. destruct (Ascii.eqb c a); reflexivity.
Qed.

(** The counts of the characters 5, 7, 8 and 9 of a numeral are the counters
    of its candidate, and the other characters are those of the prefix. *)
Lemma count_char_numeral a c :
  count_char a (c_numeral c) =
    (count_char a (str (c_prefix c))
     + (if Ascii.eqb "5" a then c_num5s c else 0)
     + (if Ascii.eqb "7" a then c_num7s c else 0)
     + (if Ascii.eqb "8" a then c_num8s c else 0)
     + (if Ascii.eqb "9" a then c_num9s c else 0))%nat.
Proof.
  unfold c_numeral. rewrite !count_char_append, !count_char_run. lia.
Qed.

Lemma candidate_num ndigits c :
  In c (spec_digits_cands ndigits) ->
  c_num c = 5 ^ Z.of_nat (c_num5s c) * 7 ^ Z.of_nat (c_num7s c)
            * 8 ^ Z.of_nat (c_num8s c) * 9 ^ Z.of_nat (c_num9s c) * prod (c_prefix c).
Proof.
  unfold spec_digits_cands. rewrite in_flat_map. intros (pfx & _ & Hc).
  unfold spec_prefix_cands in Hc.
  destruct (ndigits <? digits pfx)%nat; [destruct Hc|].
  apply in_app_iff in Hc as [Hc|Hc].
  - destruct (Z.odd (prod pfx)); [|destruct Hc].
    apply in_spec_family_A in Hc as (q & d & _ & ->).
    cbn [c_prefix c_num5s c_num7s c_num8s c_num9s c_num].
    change (Z.of_nat 0) with 0. rewrite Z.pow_0_r. ring.
  - apply in_spec_family_B in Hc as (m & d & _ & ->).
    cbn [c_prefix c_num5s c_num7s c_num8s c_num9s c_num].
    change (Z.of_nat 0) with 0. rewrite Z.pow_0_r. ring.
Qed.

Lemma numeral_injective D1 D2 c1 c2 :
  In c1 (spec_digits_cands D1) -> In c2 (spec_digits_cands D2) ->
  c_numeral c1 = c_numeral c2 -> c1 = c2.
Proof.
  intros H1 H2 E.
  pose proof (candidate_num _ _ H1) as N1. pose proof (candidate_num _ _ H2) as N2.
  destruct (spec_digits_cands_counters _ _ H1) as [P1 _].
  destruct (spec_digits_cands_counters _ _ H2) as [P2 _].
  assert (forall a, count_char a (c_numeral c1) = count_char a (c_numeral c2)) as Hc
    by (intros a; rewrite E; reflexivity).
  pose proof (Hc "2"%char) as C2. pose proof (Hc "3"%char) as C3.
  pose proof (Hc "4"%char) as C4. pose proof (Hc "6"%char) as C6.
  pose proof (Hc "5"%char) as C5. pose proof (Hc "7"%char) as C7.
  pose proof (Hc "8"%char) as C8. pose proof (Hc "9"%char) as C9.
  rewrite !count_char_numeral in C2, C3, C4, C5, C6, C7, C8, C9.
  destruct c1 as [p1 a1 b1 x1 d1 n1], c2 as [p2 a2 b2 x2 d2 n2].
  cbn [c_prefix c_num5s c_num7s c_num8s c_num9s c_num] in *.
  assert (p1 = p2) as ->.
  { clear N1 N2 C5 C7 C8 C9 H1 H2 E Hc.
    repeat (destruct P1 as [<-|P1]; [|]); try destruct P1;
    repeat (destruct P2 as [<-|P2]; [|]); try destruct P2;
    try reflexivity; vm_compute in C2, C3, C4, C6; lia. }
  assert (forall a, In p2 prefixes ->
            In a ["5"; "7"; "8"; "9"]%char -> count_char a (str p2) = 0%nat) as Hz.
  { clear. intros a Hp Ha.
    repeat (destruct Hp as [<-|Hp]; [|]); try destruct Hp;
    repeat (destruct Ha as [<-|Ha]; [|]); try destruct Ha; reflexivity. }
  rewrite !Hz in C5, C7, C8, C9 by (simpl; tauto).
  cbn in C5, C7, C8, C9.
  assert (a1 = a2) as -> by lia. assert (b1 = b2) as -> by lia.
  assert (x1 = x2) as -> by lia. assert (d1 = d2) as -> by lia.
  rewrite N1, N2. reflexivity.
Qed.

(** X13: in a run of [main], for every [MAX_DIGITS], no numeral is compared
    twice: the numerals of the calls of [mpz_persistence] (the prefix
    followed by the runs of 5s, 7s, 8s and 9s) are pairwise distinct. *)
Theorem main_numerals_distinct (max_digits : nat) :
  List.NoDup (map (fun e => c_numeral (ev_cand e)) (trace (main_upto max_digits))).
Proof.
  destruct (main_trace max_digits) as (new & -> & _ & _ & M & _).
  rewrite <- (map_map ev_cand c_numeral), M.
  apply nodup_map_inj; [apply spec_enumeration_nodup|].
  intros x y Hx Hy E.
  apply in_spec_enumeration in Hx as (D1 & _ & Hx).
  apply in_spec_enumeration in Hy as (D2 & _ & Hy).
  apply (numeral_injective D1 D2); assumption.
Qed.

(** * The record as a running maximum *)

Lemma ev_max_after_max e : ev_max_after e = Z.max (ev_max e) (ev_persistence e).
Proof.
  unfold ev_max_after, ev_printed.
  destruct (Z.ltb_spec (ev_max e) (ev_persistence e)); lia.
Qed.

Lemma chained_running_max t : forall m m',
  chained m t m' ->
  m' = fold_left Z.max (map ev_persistence t) m /\
  forall t1 e t2, t = t1 ++ e :: t2 ->
    ev_max e = fold_left Z.max (map ev_persistence t1) m.
Proof.
  induction t as [|e0 t IH]; intros m m' H; simpl in H.
  - split; [symmetry; exact H|]. intros [|e1 t1] e t2 E; discriminate E.
  - destruct H as [Hm H]. destruct (IH _ _ H) as [IH1 IH2].
    rewrite ev_max_after_max, Hm in IH1, IH2. split; [exact IH1|].
    intros [|e1 t1] e t2 E; injection E as -> E.
    + exact Hm.
    + simpl. apply (IH2 t1 e t2 E).
Qed.

Lemma fold_max_lt l : forall m p,
  fold_left Z.max l m < p <-> m < p /\ Forall (fun x => x < p) l.
Proof.
  induction l as [|a l IH]; intros m p; simpl.
  - split; [intros H; split; [exact H | constructor] | intros [H _]; exact H].
  - rewrite IH. split.
    + intros [H F]. split; [lia|]. constructor; [lia | exact F].
    + intros [H F]. inversion F; subst. split; [lia | assumption].
Qed.

Lemma spec_enumeration_numerals_nodup max_digits :
  List.NoDup (map c_numeral (spec_enumeration max_digits)).
Proof.
  apply nodup_map_inj; [apply spec_enumeration_nodup|].
  intros x y Hx Hy E.
  apply in_spec_enumeration in Hx as (D1 & _ & Hx).
  apply in_spec_enumeration in Hy as (D2 & _ & Hy).
  apply (numeral_injective D1 D2); assumption.
Qed.

Lemma nodup_key_eq {A B : Type} (f : A -> B) (l : list A) :
  List.NoDup (map f l) -> forall x y, In x l -> In y l -> f x = f y -> x = y.
Proof.
  induction l as [|a l IH]; intros H x y Hx Hy E; [destruct Hx|].
  simpl in H. inversion H as [|? ? Ha Hl]; subst.
  destruct Hx as [<-|Hx], Hy as [<-|Hy].
  - reflexivity.
  - exfalso. apply Ha. rewrite E. apply in_map. exact Hy.
  - exfalso. apply Ha. rewrite <- E. apply in_map. exact Hx.
  - apply IH; assumption.
Qed.

(** The comparison of the candidate [c] of the enumeration, read from the
    log: its entry, and whether its line is on [stdout]. *)
Lemma main_comparison_of max_digits cs1 c cs2 :
  spec_enumeration max_digits = cs1 ++ c :: cs2 ->
  exists e,
    ev_cand e = c /\
    ev_persistence e = wrap (1 + mpz_persistence (c_num c)) /\
    ev_max e = fold_left Z.max
                 (map (fun c' => wrap (1 + mpz_persistence (c_num c'))) cs1) 2 /\
    (forall l, In l (stdout (main_upto max_digits)) ->
       line_numeral l = c_numeral c -> l = ev_line e /\ ev_printed e = true) /\
    (ev_printed e = true -> In (ev_line e) (stdout (main_upto max_digits))).
Proof.
  intros Hsplit.
  destruct (main_trace max_digits) as (new & _ & O & C & M & P).
  pose proof (spec_enumeration_numerals_nodup max_digits) as ND.
  rewrite <- M, map_map in ND. rewrite Hsplit in M.
  apply map_eq_app in M as (t1 & t2' & -> & M1 & M2).
  apply map_eq_cons in M2 as (e & t2 & -> & Me & M2).
  destruct (chained_running_max _ _ _ C) as [_ Hmax].
  specialize (Hmax t1 e t2 eq_refl).
  assert (map ev_persistence t1
          = map (fun c' => wrap (1 + mpz_persistence (c_num c'))) cs1) as Hp1.
  { rewrite <- M1, map_map. apply map_ext_in. intros e' He'.
    rewrite List.Forall_forall in P. apply P. apply in_or_app. left. exact He'. }
  assert (In e (t1 ++ e :: t2)) as Hin by (apply in_or_app; right; left; reflexivity).
  exists e. split; [exact Me|]. split.
  { rewrite List.Forall_forall in P. rewrite (P e Hin), Me. reflexivity. }
  split; [rewrite <- Hp1; exact Hmax|]. rewrite O. split.
  - intros l Hl Hnum. apply in_map_iff in Hl as (e' & <- & He').
    apply filter_In in He' as [He' Hpr].
    assert (e' = e) as ->.
    { apply (nodup_key_eq _ _ ND); [exact He' | exact Hin|].
      unfold ev_line in Hnum. simpl in Hnum. rewrite Hnum, Me. reflexivity. }
    split; [reflexivity | exact Hpr].
  - intros Hpr. apply in_map. apply filter_In. split; assumption.
Qed.



Lemma last_cons {A : Type} (l : list A) : forall a d,
  List.last (a :: l) d = List.last l a.
Proof.
  induction l as [|b l IH]; intros a d; [reflexivity|].
  change (List.last (a :: b :: l) d) with (List.last (b :: l) d).
  rewrite (IH b d), (IH b a). reflexivity.
Qed.

Lemma chained_last t : forall m m',
  chained m t m' ->
  m' = List.last (map ev_persistence (List.filter ev_printed t)) m.
Proof.
  induction t as [|e t IH]; intros m m' H; simpl in H.
  - symmetry. exact H.
  - destruct H as [Hm H]. specialize (IH _ _ H). simpl List.filter.
    unfold ev_max_after in IH. destruct (ev_printed e).
    + simpl map. rewrite last_cons. exact IH.
    + rewrite Hm in IH. exact IH.
Qed.

(** X15: when [main] ends, [max] is the largest of 2 and of the values
    [1 + mpz_persistence(num)] computed for all the candidates of the
    enumeration, none of which exceeds it, and it is the persistence printed
    on the last record line of [stdout] (2 when no line was printed). *)
Theorem main_final_max (max_digits : nat) :
  let st := main_upto max_digits in
  let computed :=
    map (fun c => wrap (1 + mpz_persistence (c_num c))) (spec_enumeration max_digits) in
  map ev_persistence (trace st) = computed /\
  max st = fold_left Z.max computed 2 /\
  max st = List.last (map line_persistence (stdout st)) 2 /\
  Forall (fun p => p <= max st) computed.
Proof.
  cbv zeta. destruct (main_trace max_digits) as (new & -> & -> & C & M & P).
  destruct (chained_running_max _ _ _ C) as [Hmax _].
  destruct (chained_records _ _ _ C) as (_ & _ & _ & F & _).
  assert (map ev_persistence new
          = map (fun c => wrap (1 + mpz_persistence (c_num c)))
              (spec_enumeration max_digits)) as E.
  { rewrite <- M, map_map. apply map_ext_in. intros e He.
    rewrite List.Forall_forall in P. apply P. exact He. }
  rewrite <- E. split; [reflexivity|]. split; [exact Hmax|]. split.
  - rewrite map_map. apply (chained_last _ _ _ C).
  - apply Forall_map. eapply Forall_impl; [exact F|]. intros e [_ H]. simpl in H.
    rewrite ev_max_after_max in H. lia.
Qed.

(** * The record lines, by length *)

Lemma strongly_sorted_keys {A B : Type} (key : B -> nat) (f : A -> list B)
    (g : A -> nat) (l : list A) :
  StronglySorted le (map g l) ->
  (forall x y, In x l -> In y (f x) -> key y = g x) ->
  StronglySorted le (map key (flat_map f l)).
Proof.
  induction l as [|a l IH]; intros Hs Hkey; simpl; [constructor|].
  simpl in Hs. apply StronglySorted_inv in Hs as [Hs Ha].
  rewrite map_app. apply StronglySorted_app_2.
  - intros x1 x2 H1 H2. apply list_elem_of_In in H1, H2.
    apply in_map_iff in H1 as (y1 & <- & Hy1).
    apply in_map_iff in H2 as (y2 & <- & Hy2).
    apply in_flat_map in Hy2 as (x & Hx & Hy2).
    rewrite (Hkey a y1), (Hkey x y2) by (simpl; tauto).
    rewrite List.Forall_forall in Ha. apply Ha, in_map, Hx.
  - assert (Forall (fun y => key y = g a) (f a)) as Hall
      by (apply List.Forall_forall; intros y Hy; apply Hkey; [left; reflexivity | exact Hy]).
    induction Hall as [|y l' Hy Hall IH']; simpl; constructor; [exact IH'|].
    apply Forall_map. eapply Forall_impl; [exact Hall|]. simpl. intros; lia.
  - apply IH; [exact Hs|]. intros x y Hx Hy. apply Hkey; [right; exact Hx | exact Hy].
Qed.

Lemma strongly_sorted_seq lo n : StronglySorted le (seq lo n).
Proof.
  revert lo. induction n as [|n IH]; intros lo; simpl; constructor; [apply IH|].
  apply List.Forall_forall. intros x Hx. apply in_seq in Hx. lia.
Qed.

Lemma strongly_sorted_map_filter {A : Type} (k : A -> nat) (p : A -> bool) (l : list A) :
  StronglySorted le (map k l) -> StronglySorted le (map k (List.filter p l)).
Proof.
  induction l as [|a l IH]; intros Hs; simpl; [constructor|].
  simpl in Hs. apply StronglySorted_inv in Hs as [Hs Ha].
  destruct (p a); [|apply IH, Hs]. simpl. constructor; [apply IH, Hs|].
  apply Forall_map. apply List.Forall_forall. intros x Hx.
  apply List.filter_In in Hx as [Hx _].
  rewrite List.Forall_forall in Ha. apply Ha, in_map, Hx.
Qed.


(** X17: the record does not depend on the order of the comparisons.  Let
    any candidates, with any persistences, go through the comparison and
    update of lines 177-194 and 214-231 in any order, as the threads of the
    build with [USE_OPENMP] do under the mutex: the persistences printed
    increase strictly, each is greater than 2, and [max] ends at least as
    large as each of them. *)
Theorem record_in_any_order (steps : list (candidate * Z * string)) :
  let st := fold_left
              (fun st x => check_record (fst (fst x)) (snd (fst x)) (snd x) st)
              steps init_state in
  StronglySorted Z.lt (map line_persistence (stdout st)) /\
  Forall (fun l => 2 < line_persistence l <= max st) (stdout st) /\
  2 <= max st.
Proof.
  cbv zeta.
  assert (record_ok init_state) as H0
    by (unfold record_ok; simpl; repeat split; [constructor | constructor | lia]).
  revert H0. generalize init_state. induction steps as [|x steps IH]; intros st H.
  - exact H.
  - simpl. apply IH, check_record_ok, H.
Qed.

(** * The progress report *)

Lemma for_range_succ {S : Type} lo hi (body : nat -> S -> S) st :
  (lo <= hi)%nat ->
  for_range lo (Datatypes.S hi) body st = body hi (for_range lo hi body st).
Proof.
  intros H. unfold for_range.
  replace (Datatypes.S hi - lo)%nat with (Datatypes.S (hi - lo)) by lia.
  rewrite seq_S, fold_left_app. simpl. f_equal. lia.
Qed.

Lemma for_range_empty {S : Type} lo hi (body : nat -> S -> S) st :
  (hi <= lo)%nat -> for_range lo hi body st = st.
Proof.
  intros H. unfold for_range. replace (hi - lo)%nat with 0%nat by lia. reflexivity.
Qed.

Lemma digit_bucket_count_eq max_digits :
  Z.of_nat max_digits < 2 ^ 31 ->
  Z.of_nat (digit_bucket_count max_digits) = Z.of_nat max_digits / DIGIT_DIVISOR + 1.
Proof.
  intros H. unfold digit_bucket_count, DIGIT_DIVISOR.
  assert (0 <= Z.of_nat max_digits / 100 <= Z.of_nat max_digits).
  { split; [apply Z.div_pos; lia|]. apply Z.div_le_upper_bound; lia. }
  rewrite wrap_small by (change (2 ^ UINT_BITS) with 4294967296; change (2 ^ 31) with 2147483648 in H; lia).
  rewrite Z2Nat.id by lia. reflexivity.
Qed.

(** The value the loop of lines 126-131 gives to the entry [i]. *)
Lemma init_bucket_value max_digits (i : nat) dl :
  Z.of_nat max_digits < 2 ^ 31 -> (i < digit_bucket_count max_digits)%nat ->
  init_bucket max_digits i dl =
    <[i := Z.min (DIGIT_DIVISOR * (Z.of_nat i + 1)) (Z.of_nat max_digits)
           - DIGIT_DIVISOR * Z.of_nat i]> dl.
Proof.
  intros HM Hi. pose proof (digit_bucket_count_eq max_digits HM) as Hc.
  unfold init_bucket, DIGIT_DIVISOR in *.
  change (2 ^ 31) with 2147483648 in HM.
  pose proof (Z.div_mod (Z.of_nat max_digits) 100 ltac:(lia)) as Hd.
  pose proof (Z.mod_pos_bound (Z.of_nat max_digits) 100 ltac:(lia)) as Hr.
  assert (forall x, 0 <= x < 4294967296 -> wrap x = x) as Hw
    by (intros x Hx; apply wrap_small; exact Hx).
  rewrite (Hw (Z.of_nat max_digits)), (Hw (Z.of_nat i + 1)),
    (Hw ((Z.of_nat i + 1) * 100)), (Hw (Z.of_nat i * 100)) by lia.
  destruct (Z.ltb_spec (Z.of_nat max_digits) ((Z.of_nat i + 1) * 100)) as [Hlt|Hge].
  - rewrite Hw by lia. f_equal. lia.
  - f_equal. lia.
Qed.

Lemma init_loop max_digits (n k : nat) :
  Z.of_nat max_digits < 2 ^ 31 -> (n <= digit_bucket_count max_digits)%nat ->
  (k <= n)%nat ->
  let dl := for_range 0 k (init_bucket max_digits) (replicate n 0) in
  length dl = n /\
  forall b, (b < k)%nat ->
    dl !!! b = Z.min (DIGIT_DIVISOR * (Z.of_nat b + 1)) (Z.of_nat max_digits)
               - DIGIT_DIVISOR * Z.of_nat b.
Proof.
  intros HM Hn. induction k as [|k IH]; intros Hk; cbv zeta.
  - rewrite for_range_empty by lia. split; [apply length_replicate|]. intros b Hb; lia.
  - rewrite for_range_succ by lia. destruct (IH ltac:(lia)) as [IHl IHv].
    rewrite init_bucket_value by (assumption || lia). split.
    + rewrite length_insert. exact IHl.
    + intros b Hb. destruct (Nat.eq_dec b k) as [->|Hne].
      * rewrite list_lookup_total_insert_eq by lia. reflexivity.
      * rewrite list_lookup_total_insert_ne by lia. apply IHv. lia.
Qed.

Lemma init_progress_inv max_digits :
  (1 <= max_digits)%nat -> Z.of_nat max_digits < 2 ^ 31 ->
  progress_inv max_digits 1 (init_progress max_digits).
Proof.
  intros H1 HM. pose proof (digit_bucket_count_eq max_digits HM) as Hc.
  destruct (init_loop max_digits (digit_bucket_count max_digits)
              (digit_bucket_count max_digits) HM (Nat.le_refl _) (Nat.le_refl _))
    as [Hl Hv].
  unfold progress_inv, init_progress. cbv zeta. simpl digits_left. simpl stderr.
  set (dl := for_range 0 (digit_bucket_count max_digits) (init_bucket max_digits)
               (replicate (digit_bucket_count max_digits) 0)) in *.
  assert (0 <= Z.of_nat max_digits / DIGIT_DIVISOR)
    by (apply Z.div_pos; unfold DIGIT_DIVISOR; lia).
  assert (0 < digit_bucket_count max_digits)%nat as Hpos by lia.
  split; [rewrite length_insert; exact Hl|]. split; [|reflexivity].
  intros b Hb. unfold bucket_left, DIGIT_DIVISOR in *.
  change (2 ^ 31) with 2147483648 in HM.
  pose proof (Z.div_mod (Z.of_nat max_digits) 100 ltac:(lia)) as Hd.
  pose proof (Z.mod_pos_bound (Z.of_nat max_digits) 100 ltac:(lia)) as Hr.
  destruct (Nat.eq_dec b 0) as [->|Hne].
  - rewrite list_lookup_total_insert_eq by lia. rewrite (Hv 0%nat Hpos).
    rewrite wrap_small by (change (2 ^ UINT_BITS) with 4294967296; lia). lia.
  - rewrite list_lookup_total_insert_ne by lia. rewrite (Hv b Hb). lia.
Qed.

(** One report (lines 239-253) after the digit count [d + 1]. *)
Lemma finish_digits_inv max_digits (d : nat) pr :
  Z.of_nat max_digits < 2 ^ 31 -> (1 <= d < max_digits)%nat ->
  progress_inv max_digits d pr ->
  progress_inv max_digits (S d) (finish_digits max_digits (S d) pr).
Proof.
  intros HM Hd (Hl & Hv & He). pose proof (digit_bucket_count_eq max_digits HM) as Hc.
  unfold finish_digits, DIGIT_DIVISOR in *. cbv zeta.
  change (2 ^ 31) with 2147483648 in HM.
  assert (forall x, 0 <= x < 4294967296 -> wrap x = x) as Hw
    by (intros x Hx; apply wrap_small; exact Hx).
  rewrite (Hw (Z.of_nat (S d) - 1)) by lia.
  replace (Z.of_nat (S d) - 1) with (Z.of_nat d) by lia.
  pose proof (Z.div_mod (Z.of_nat d) 100 ltac:(lia)) as Hq.
  pose proof (Z.mod_pos_bound (Z.of_nat d) 100 ltac:(lia)) as Hqr.
  pose proof (Z.div_mod (Z.of_nat max_digits) 100 ltac:(lia)) as Hm.
  pose proof (Z.mod_pos_bound (Z.of_nat max_digits) 100 ltac:(lia)) as Hmr.
  pose proof (Z.div_mod (Z.of_nat (S d)) 100 ltac:(lia)) as Hs.
  pose proof (Z.mod_pos_bound (Z.of_nat (S d)) 100 ltac:(lia)) as Hsr.
  set (q := Z.of_nat d / 100) in *.
  assert (0 <= q) as Hq0 by (apply Z.div_pos; lia).
  assert (q <= Z.of_nat max_digits / 100) as Hqm by (apply Z.div_le_mono; lia).
  set (b0 := Z.to_nat q) in *. assert (Z.of_nat b0 = q) as Hb0 by (apply Z2Nat.id, Hq0).
  assert (b0 < digit_bucket_count max_digits)%nat as Hin by lia.
  rewrite (Hv b0 Hin), Hb0. unfold bucket_left, DIGIT_DIVISOR.
  assert (Z.max 0 (Z.min (100 * (q + 1)) (Z.of_nat max_digits)
                   - Z.max (100 * q) (Z.of_nat d)) - 1
          = Z.min (100 * (q + 1)) (Z.of_nat max_digits) - Z.of_nat (S d)) as -> by lia.
  rewrite Hw by lia.
  assert (stderr_next :
    List.filter (reports max_digits) (map Z.of_nat (seq 2 (S d - 1))) =
    List.filter (reports max_digits) (map Z.of_nat (seq 2 (d - 1)))
    ++ (if reports max_digits (Z.of_nat (S d)) then [Z.of_nat (S d)] else [])).
  { replace (S d - 1)%nat with (S (d - 1)) by lia.
    rewrite seq_S, map_app, List.filter_app. simpl.
    replace (S (S (d - 1))) with (S d) by lia. reflexivity. }
  assert (reports max_digits (Z.of_nat (S d)) =
          (Z.min (100 * (q + 1)) (Z.of_nat max_digits) - Z.of_nat (S d) =? 0)) as Hrep.
  { unfold reports, DIGIT_DIVISOR.
    destruct (Z.eqb_spec (Z.min (100 * (q + 1)) (Z.of_nat max_digits) - Z.of_nat (S d)) 0);
    destruct (Z.eqb_spec (Z.of_nat (S d) mod 100) 0);
    destruct (Z.eqb_spec (Z.of_nat (S d)) (Z.of_nat max_digits)); simpl; try reflexivity; lia. }
  assert (forall b, (b < digit_bucket_count max_digits)%nat ->
    <[b0 := Z.min (100 * (q + 1)) (Z.of_nat max_digits) - Z.of_nat (S d)]>
      (digits_left pr) !!! b
    = Z.max 0 (Z.min (100 * (Z.of_nat b + 1)) (Z.of_nat max_digits)
               - Z.max (100 * Z.of_nat b) (Z.of_nat (S d)))) as Hnew.
  { intros b Hb. destruct (Nat.eq_dec b b0) as [->|Hne].
    - rewrite list_lookup_total_insert_eq by lia. rewrite Hb0. lia.
    - rewrite list_lookup_total_insert_ne by lia. rewrite (Hv b Hb).
      unfold bucket_left, DIGIT_DIVISOR. lia. }
  rewrite Hrep in stderr_next.
  destruct (Z.eqb_spec (Z.min (100 * (q + 1)) (Z.of_nat max_digits) - Z.of_nat (S d)) 0)
    as [Hz|Hnz]; unfold progress_inv; cbn [digits_left stderr];
    (split; [rewrite length_insert; exact Hl|]); (split; [exact Hnew|]);
    rewrite stderr_next, He.
  - f_equal. f_equal.
    rewrite (Hw (Z.of_nat max_digits)), (Hw (q + 1)), (Hw ((q + 1) * 100)) by lia.
    destruct (Z.ltb_spec (Z.of_nat max_digits) ((q + 1) * 100)); lia.
  - rewrite app_nil_r. reflexivity.
Qed.

Lemma main_progress_inv max_digits (d : nat) :
  Z.of_nat max_digits < 2 ^ 31 -> (1 <= d <= max_digits)%nat ->
  progress_inv max_digits d
    (for_range 2 (S d) (finish_digits max_digits) (init_progress max_digits)).
Proof.
  intros HM. induction d as [|d IH]; intros Hd; [lia|].
  destruct (Nat.eq_dec d 0) as [->|Hne].
  - rewrite for_range_empty by lia. apply init_progress_inv; [lia | exact HM].
  - rewrite for_range_succ by lia.
    apply finish_digits_inv; [exact HM | lia | apply IH; lia].
Qed.

(** The two parts of the state of [main] go through the loop of line 142
    side by side. *)
Lemma main_full_split max_digits :
  main_full max_digits = (main_upto max_digits, main_progress max_digits).
Proof.
  unfold main_full, main_upto, main_progress, for_range.
  generalize (seq 2 (S max_digits - 2)) init_state (init_progress max_digits).
  intros l. induction l as [|d l IH]; intros st pr; simpl; [reflexivity|].
  rewrite IH. reflexivity.
Qed.



Lemma forall_lookup_total (l : list Z) (P : Z -> Prop) :
  (forall b, (b < length l)%nat -> P (l !!! b)) -> Forall P l.
Proof.
  induction l as [|a l IH]; intros H; constructor.
  - apply (H 0%nat). simpl. lia.
  - apply IH. intros b Hb. apply (H (S b)). simpl. lia.
Qed.

(** X19: for [MAX_DIGITS] from 1 up to the range of [int], the array
    [digits_left] has [MAX_DIGITS / DIGIT_DIVISOR + 1] entries, the bucket
    index [(digits - 1) / DIGIT_DIVISOR] of every digit count of the loop
    lies inside it, and when [main] ends every counter is zero: no counter
    is decremented below zero. *)
Theorem progress_counters (max_digits : nat) (H1 : (1 <= max_digits)%nat)
    (Hint : Z.of_nat max_digits < 2 ^ 31) :
  Z.of_nat (length (digits_left (main_progress max_digits))) = Z.of_nat max_digits / 100 + 1 /\
  (forall ndigits, (2 <= ndigits <= max_digits)%nat ->
     (Z.to_nat (wrap (Z.of_nat ndigits - 1) / DIGIT_DIVISOR)
      < length (digits_left (main_progress max_digits)))%nat) /\
  Forall (fun left => left = 0) (digits_left (main_progress max_digits)).
Proof.
  destruct (main_progress_inv max_digits max_digits Hint ltac:(lia)) as (Hl & Hv & _).
  fold (main_progress max_digits) in Hl, Hv.
  pose proof (digit_bucket_count_eq max_digits Hint) as Hc.
  unfold DIGIT_DIVISOR in *. change (2 ^ 31) with 2147483648 in Hint.
  split; [rewrite Hl; exact Hc|]. split.
  - intros d Hd. rewrite Hl.
    rewrite wrap_small by (change (2 ^ UINT_BITS) with 4294967296; lia).
    assert (0 <= (Z.of_nat d - 1) / 100 <= Z.of_nat max_digits / 100).
    { split; [apply Z.div_pos; lia | apply Z.div_le_mono; lia]. }
    lia.
  - apply forall_lookup_total. intros b Hb. rewrite Hl in Hb. rewrite (Hv b Hb).
    unfold bucket_left, DIGIT_DIVISOR. lia.
Qed.

Lemma progress_counters_witness :
  (1 <= 100)%nat /\ Z.of_nat 100 < 2 ^ 31 /\
  Forall (fun left => left = 0) (digits_left (main_progress 100)).
Proof.
  assert (1 <= 100)%nat as H1 by lia.
  assert (Z.of_nat 100 < 2 ^ 31) as H2 by (vm_compute; reflexivity).
  split; [exact H1|]. split; [exact H2|].
  exact (proj2 (proj2 (progress_counters 100 H1 H2))).
Defined.

(** * The candidates [main] leaves out *)

Lemma mpz_persistence_multiple_of_ten n :
  10 <= n -> n mod 10 = 0 -> mpz_persistence n <= 1.
Proof.
  intros Hn Hm. destruct (Z.eq_dec n 10) as [->|Hne].
  - rewrite mpz_persistence_stop by lia. lia.
  - rewrite mpz_persistence_step by lia.
    rewrite mul_digits_zero_digit; [|lia|].
    + rewrite mpz_persistence_stop by lia. vm_compute. discriminate.
    + rewrite spec_digits_step by exact Hn. left. exact Hm.
Qed.

(** X20: the candidates that [main] does not enumerate, those with a 5
    together with an 8 or with an even prefix product (comment of lines
    153-158), could not give a record line: their [num] is a multiple of 10,
    so [1 + mpz_persistence(num)] is at most 2, and the comparison with a
    [max] of 2 or more changes neither [max] nor [stdout]. *)
Theorem left_out_candidates (pfx : prefix) (s b c d : nat)
    (Hs : (1 <= s)%nat) (Hpos : 1 <= prod pfx)
    (Heven : Z.even (prod pfx) = true \/ (1 <= c)%nat) :
  let num := 5 ^ Z.of_nat s * 7 ^ Z.of_nat b * 8 ^ Z.of_nat c * 9 ^ Z.of_nat d * prod pfx in
  let persistence := wrap (1 + mpz_persistence num) in
  persistence <= 2 /\
  forall cand runs st, 2 <= max st ->
    max (check_record cand persistence runs st) = max st /\
    stdout (check_record cand persistence runs st) = stdout st.
Proof.
  cbv zeta.
  set (num := 5 ^ Z.of_nat s * 7 ^ Z.of_nat b * 8 ^ Z.of_nat c * 9 ^ Z.of_nat d * prod pfx).
  assert (exists k, 1 <= k /\ num = 10 * k) as (k & Hk & Hnum).
  { assert (0 < 5 ^ Z.of_nat (s - 1)) by (apply Z.pow_pos_nonneg; lia).
    assert (0 < 7 ^ Z.of_nat b) by (apply Z.pow_pos_nonneg; lia).
    assert (0 < 9 ^ Z.of_nat d) by (apply Z.pow_pos_nonneg; lia).
    assert (5 ^ Z.of_nat s = 5 * 5 ^ Z.of_nat (s - 1)) as E5.
    { replace (Z.of_nat s) with (Z.succ (Z.of_nat (s - 1))) by lia.
      rewrite Z.pow_succ_r by lia. reflexivity. }
    destruct Heven as [He|Hc].
    - apply Z.even_spec in He as [h Hh].
      assert (0 < 8 ^ Z.of_nat c) by (apply Z.pow_pos_nonneg; lia).
      exists (5 ^ Z.of_nat (s - 1) * 7 ^ Z.of_nat b * 8 ^ Z.of_nat c * 9 ^ Z.of_nat d * h).
      split; [|subst num; rewrite E5, Hh; ring].
      assert (1 <= h) by lia.
      assert (0 < 5 ^ Z.of_nat (s - 1) * 7 ^ Z.of_nat b * 8 ^ Z.of_nat c * 9 ^ Z.of_nat d)
        by (repeat apply Z.mul_pos_pos; assumption).
      nia.
    - assert (0 < 8 ^ Z.of_nat (c - 1)) by (apply Z.pow_pos_nonneg; lia).
      assert (8 ^ Z.of_nat c = 8 * 8 ^ Z.of_nat (c - 1)) as E8.
      { replace (Z.of_nat c) with (Z.succ (Z.of_nat (c - 1))) by lia.
        rewrite Z.pow_succ_r by lia. reflexivity. }
      exists (5 ^ Z.of_nat (s - 1) * 7 ^ Z.of_nat b * (4 * 8 ^ Z.of_nat (c - 1))
              * 9 ^ Z.of_nat d * prod pfx).
      split; [|subst num; rewrite E5, E8; ring].
      assert (0 < 5 ^ Z.of_nat (s - 1) * 7 ^ Z.of_nat b * (4 * 8 ^ Z.of_nat (c - 1))
                  * 9 ^ Z.of_nat d)
        by (repeat apply Z.mul_pos_pos; try assumption; lia).
      nia. }
  clearbody num.
  assert (mpz_persistence num <= 1) as Hp.
  { apply mpz_persistence_multiple_of_ten; [lia|].
    rewrite Hnum, Z.mul_comm. apply Z.mod_mul. lia. }
  assert (0 <= mpz_persistence num) as Hp0.
  { destruct (mpz_persistence_counts num) as (j & _ & ->). apply wrap_range. }
  assert (wrap (1 + mpz_persistence num) <= 2) as Hw
    by (rewrite wrap_small by (change (2 ^ UINT_BITS) with 4294967296; lia); lia).
  split; [exact Hw|]. intros cand runs st Hmax. unfold check_record.
  destruct (Z.ltb_spec (max st) (wrap (1 + mpz_persistence num))); [lia|].
  split; reflexivity.
Qed.

Lemma left_out_candidates_witness :
  (1 <= 1)%nat /\ 1 <= prod {| str := "2"; digits := 1; prod := 2 |} /\
  wrap (1 + mpz_persistence (5 ^ Z.of_nat 1 * 7 ^ Z.of_nat 0 * 8 ^ Z.of_nat 0
                             * 9 ^ Z.of_nat 0 * 2)) <= 2.
Proof.
  assert (1 <= 1)%nat as H1 by lia.
  assert (1 <= prod {| str := "2"; digits := 1; prod := 2 |}) as H2 by (simpl; lia).
  split; [exact H1|]. split; [exact H2|].
  exact (proj1 (left_out_candidates {| str := "2"; digits := 1; prod := 2 |}
                  1 0 0 0 H1 H2 (or_introl eq_refl))).
Defined.
